(** * Transaction categorizer training script: text normalisation, bank
    encoding and the control flow of the training pipeline

    Shallow embedding of [scripts/ml/train_categorizer.py].

    Python [str] values are sequences of Unicode code points: a code point is
    an [N], a string a [list] of them.  The functions of Python's Unicode
    database that the script calls ([str.upper], [str.strip],
    [unicodedata.normalize("NFD", _)], and the classes behind [\s], [\d] and
    [\b] of the [re] module) are the operations of the class [UnicodeDB];
    the laws of the class are facts of the Unicode standard.  The regular
    expressions of the script are terms of a small backtracking matcher with
    the priorities of Python's [re]. *)

From Stdlib Require Import String Ascii.
From Stdlib Require Import List NArith ZArith Bool Arith Lia Floats Sorted.
Import ListNotations.

(** ** Code points and strings *)

Definition cp := N.
Definition str := list cp.

(** An ASCII literal of the script as a list of code points. *)
Definition u (s : string) : str := map N_of_ascii (list_ascii_of_string s).

Definition is_ascii (c : cp) : bool := (c <? 128)%N.

(** [str.upper], [str.isspace], [str.isdecimal], [str.isalnum] on the Basic
    Latin block (code points below 128). *)
Definition ascii_upper (c : cp) : cp :=
  if ((97 <=? c) && (c <=? 122))%N then (c - 32)%N else c.

Definition ascii_isspace (c : cp) : bool :=
  (((9 <=? c) && (c <=? 13)) || ((28 <=? c) && (c <=? 32)))%N.

Definition ascii_isdecimal (c : cp) : bool := ((48 <=? c) && (c <=? 57))%N.

Definition ascii_isalnum (c : cp) : bool :=
  (ascii_isdecimal c
   || ((65 <=? c) && (c <=? 90)) || ((97 <=? c) && (c <=? 122)))%N.

(** The class [\u0300-\u036f] of the script: the Combining Diacritical
    Marks block. *)
Definition is_combining_mark (c : cp) : bool := ((768 <=? c) && (c <=? 879))%N.

(** ** The Unicode database used by the script

    [py_upper] is [str.upper]; [nfd] is canonical decomposition;
    [isspace] decides both what [str.strip] removes and what [\s] matches;
    [isdecimal] is [\d]; a word character ([\w], used by [\b]) is an
    alphanumeric code point or the underscore. *)
Class UnicodeDB : Type := {
  py_upper : str -> str;
  nfd : str -> str;
  isspace : cp -> bool;
  isdecimal : cp -> bool;
  isalnum : cp -> bool;
  (* Basic Latin *)
  py_upper_ascii : forall s, forallb is_ascii s = true -> py_upper s = map ascii_upper s;
  nfd_ascii : forall s, forallb is_ascii s = true -> nfd s = s;
  isspace_ascii : forall c, is_ascii c = true -> isspace c = ascii_isspace c;
  isdecimal_ascii : forall c, is_ascii c = true -> isdecimal c = ascii_isdecimal c;
  isalnum_ascii : forall c, is_ascii c = true -> isalnum c = ascii_isalnum c;
  (* general categories: decimal digits are alphanumeric, white space is
     not *)
  isdecimal_isalnum : forall c, isdecimal c = true -> isalnum c = true;
  isspace_not_isalnum : forall c, isspace c = true -> isalnum c = false;
  (* a canonically decomposed string holds no code point that decomposes *)
  nfd_decomposed : forall s c, In c (nfd s) -> nfd [c] = [c]
}.

Definition is_word `{UnicodeDB} (c : cp) : bool := isalnum c || (c =? 95)%N.

(** ** Regular expressions

    The fragment of Python's [re] syntax that the script uses.  [Chr p] is a
    literal or a class, [Rep p lo hi] is the greedy [p{lo,hi}] ([hi = None]
    for no upper bound), [Opt r] the greedy [r?], [Bol] is [^] (no MULTILINE
    flag: start of the subject only) and [WordB] is [\b]. *)
Module Re.

Inductive regex : Type :=
| Eps
| Bol
| WordB
| Chr (p : cp -> bool)
| Cat (r1 r2 : regex)
| Opt (r : regex)
| Rep (p : cp -> bool) (lo : nat) (hi : option nat).

Definition Lit (c : cp) : regex := Chr (N.eqb c).

Fixpoint Str (s : str) : regex :=
  match s with
  | [] => Eps
  | c :: s' => Cat (Lit c) (Str s')
  end.

(** What is left of a pattern to match: given a position of the subject (the
    code point before it, [None] at the start of the subject, and the text
    from it on) and the number of code points consumed so far, the length of
    the whole match, if there is one. *)
Definition cont := option cp -> str -> nat -> option nat.

Section Matcher.
Context `{UnicodeDB}.

Definition word_opt (o : option cp) : bool :=
  match o with Some c => is_word c | None => false end.

(** [\b]: exactly one of the two neighbours is a word character. *)
Definition at_boundary (prev : option cp) (s : str) : bool :=
  xorb (word_opt prev) (word_opt (hd_error s)).

Definition more (hi : option nat) : bool :=
  match hi with Some 0 => false | _ => true end.

(** Greedy bounded repetition of a class: the longest run first, then
    shorter ones while the continuation fails. *)
Fixpoint rep (p : cp -> bool) (lo : nat) (hi : option nat)
    (prev : option cp) (s : str) (n : nat) (k : cont) : option nat :=
  let stop := if (lo =? 0)%nat then k prev s n else None in
  match s with
  | c :: s' =>
      if p c && more hi then
        match rep p (pred lo) (option_map pred hi) (Some c) s' (S n) k with
        | Some r => Some r
        | None => stop
        end
      else stop
  | [] => stop
  end.

(** Backtracking match of [r] at a position, in continuation-passing style;
    [n] counts the code points consumed so far. *)
Fixpoint run (r : regex) (prev : option cp) (s : str) (n : nat) (k : cont)
    : option nat :=
  match r with
  | Eps => k prev s n
  | Bol => match prev with None => k prev s n | Some _ => None end
  | WordB => if at_boundary prev s then k prev s n else None
  | Chr p =>
      match s with
      | c :: s' => if p c then k (Some c) s' (S n) else None
      | [] => None
      end
  | Cat r1 r2 => run r1 prev s n (fun prev' s' n' => run r2 prev' s' n' k)
  | Opt r1 =>
      match run r1 prev s n k with
      | Some x => Some x
      | None => k prev s n
      end
  | Rep p lo hi => rep p lo hi prev s n k
  end.

(** Length of the match of [r] that starts at this position, if any. *)
Definition match_at (r : regex) (prev : option cp) (s : str) : option nat :=
  run r prev s 0 (fun _ _ n => Some n).

(** [re.sub]: scan from the left; at a match, emit the replacement and go on
    after the match ([skip] counts the matched code points still to drop);
    otherwise copy one code point. *)
Fixpoint sub_from (r : regex) (repl : str) (prev : option cp) (s : str)
    (skip : nat) : str :=
  match skip with
  | S j =>
      match s with
      | c :: s' => sub_from r repl (Some c) s' j
      | [] => []
      end
  | O =>
      match match_at r prev s with
      | Some (S j) =>
          repl ++ match s with
                  | c :: s' => sub_from r repl (Some c) s' j
                  | [] => []
                  end
      | Some O =>
          repl ++ match s with
                  | c :: s' => c :: sub_from r repl (Some c) s' 0
                  | [] => []
                  end
      | None =>
          match s with
          | c :: s' => c :: sub_from r repl (Some c) s' 0
          | [] => []
          end
      end
  end.

Definition sub (r : regex) (repl : str) (s : str) : str :=
  sub_from r repl None s 0.

End Matcher.
End Re.

(** ** String methods *)

Section Strings.
Context `{UnicodeDB}.

(** [str.lstrip()] *)
Fixpoint lstrip (s : str) : str :=
  match s with
  | c :: s' => if isspace c then lstrip s' else s
  | [] => []
  end.

(** [str.rstrip()] *)
Fixpoint rstrip (s : str) : str :=
  match s with
  | c :: s' =>
      match rstrip s' with
      | [] => if isspace c then [] else [c]
      | t => c :: t
      end
  | [] => []
  end.

(** [str.strip()] *)
Definition strip (s : str) : str := rstrip (lstrip s).

End Strings.

(** [b.startswith(a)] *)
Fixpoint starts_with (a b : str) : bool :=
  match a, b with
  | [], _ => true
  | x :: a', y :: b' => (x =? y)%N && starts_with a' b'
  | _ :: _, [] => false
  end.

(** [a in b] on strings *)
Fixpoint contains (a b : str) : bool :=
  starts_with a b ||
  match b with
  | [] => false
  | _ :: b' => contains a b'
  end.

(** ** Configuration *)

Definition MIN_SAMPLES_PER_CLASS : nat := 3.
Definition MIN_TOTAL_SAMPLES : nat := 50.

Definition BANCOS_CONHECIDOS : list str :=
  map u ["NUBANK"; "MERCADO PAGO"; "C6"; "ITAU"; "SANTANDER";
         "PICPAY"; "XP"; "RENNER"; "BRADESCO"; "INTER"; "CAIXA"]%string.

(** ** Pre-processing *)

Section Preprocessing.
Context `{UnicodeDB}.
Import Re.

(** the class [\u0300-\u036f] *)
Definition re_marks : regex := Chr is_combining_mark.
(** [\b\d{4,}\b] *)
Definition re_card : regex := Cat WordB (Cat (Rep isdecimal 4 None) WordB).
(** [\b\d{2}/\d{2}(/\d{2,4})?\b] *)
Definition re_date : regex :=
  Cat WordB
   (Cat (Rep isdecimal 2 (Some 2))
    (Cat (Lit 47%N)
     (Cat (Rep isdecimal 2 (Some 2))
      (Cat (Opt (Cat (Lit 47%N) (Rep isdecimal 2 (Some 4))))
       WordB)))).
(** [\s+] *)
Definition re_spaces : regex := Rep isspace 1 None.

(** [^P\*] and [^P\s?\*] for a literal [P] *)
Definition prefix (p : string) : regex :=
  Cat Bol (Cat (Str (u p)) (Lit 42%N)).
Definition prefix_sp (p : string) : regex :=
  Cat Bol (Cat (Str (u p)) (Cat (Rep isspace 0 (Some 1)) (Lit 42%N))).

(** The eight gateway rules, in the order of the script: pattern and
    replacement. *)
Definition gateway_rules : list (regex * str) :=
  [ (prefix "DL", u "GATEWAY*");
    (prefix_sp "MP", u "GATEWAY*");
    (prefix "PAG", u "GATEWAY*");
    (prefix "IFD", u "GATEWAY*");
    (prefix_sp "EC", u "GATEWAY*");
    (prefix "EBN", u "GATEWAY*");
    (prefix_sp "PG", u "GATEWAY*");
    (prefix "PICPAY", u "PICPAY*") ].

Definition apply_rule (s : str) (rule : regex * str) : str :=
  sub (fst rule) (snd rule) s.

Definition gateway (s : str) : str := fold_left apply_rule gateway_rules s.

(** [normalize_description]; the argument is [None] for Python's [None]. *)
Definition normalize_description (text : option str) : str :=
  match text with
  | None | Some [] => []
  | Some text =>
      let normalized := strip (py_upper text) in
      let normalized := nfd normalized in
      let normalized := sub re_marks [] normalized in
      let normalized := sub re_card [] normalized in
      let normalized := sub re_date [] normalized in
      let normalized := gateway normalized in
      strip (sub re_spaces (u " ") normalized)
  end.

End Preprocessing.

(** [str == str] and [str < str]: code point by code point. *)
Fixpoint str_eqb (a b : str) : bool :=
  match a, b with
  | [], [] => true
  | x :: a', y :: b' => (x =? y)%N && str_eqb a' b'
  | _, _ => false
  end.

Fixpoint str_ltb (a b : str) : bool :=
  match a, b with
  | _, [] => false
  | [], _ :: _ => true
  | x :: a', y :: b' => (x <? y)%N || ((x =? y)%N && str_ltb a' b')
  end.

(** [sorted(l)] on strings *)
Fixpoint insort (x : str) (l : list str) : list str :=
  match l with
  | [] => [x]
  | y :: l' => if str_ltb y x then y :: insort x l' else x :: l
  end.

Definition sorted (l : list str) : list str := fold_right insort [] l.

(** [Series.unique()]: the values in order of first appearance *)
Fixpoint unique_from (seen : list str) (l : list str) : list str :=
  match l with
  | [] => []
  | x :: l' =>
      if existsb (str_eqb x) seen then unique_from seen l'
      else x :: unique_from (x :: seen) l'
  end.

Definition unique (l : list str) : list str := unique_from [] l.

(** ** Bank encoding *)

(** A value that the column [banco] of the data frame can hold: [None] (a
    JSON [null]), a string, or a value of another type (a number, a
    boolean, a list, an object), of which only the truth value matters: it
    has no method [upper].  For a record of the endpoint that has no key
    [banco] the data frame holds the float NaN, which is true. *)
Inductive value : Type :=
| PyNone
| PyStr (s : str)
| PyOther (truth : bool).

Definition py_nan : value := PyOther true.

Section BankEncoding.
Context `{UnicodeDB}.

(** [vec[i] = v] on an array of the length of the list *)
Fixpoint set_item (vec : list float) (i : nat) (v : float) : list float :=
  match vec, i with
  | [], _ => []
  | _ :: vec', O => v :: vec'
  | x :: vec', S i' => x :: set_item vec' i' v
  end.

(** The loop [for i, b in enumerate(bancos_list)] from position [i] on, with
    its [break]. *)
Fixpoint encode_loop (banco_norm : str) (bancos : list str) (i : nat)
    (vec : list float) : list float :=
  match bancos with
  | [] => vec
  | b :: rest =>
      if contains (py_upper b) banco_norm then set_item vec i 1%float
      else encode_loop banco_norm rest (S i) vec
  end.

(** [banco or "desconhecido"]: the value itself when it is true *)
Definition banco_or_default (banco : value) : value :=
  match banco with
  | PyNone | PyStr [] | PyOther false => PyStr (u "desconhecido")
  | PyStr _ | PyOther true => banco
  end.

(** [x.upper()]; [None] for the AttributeError of a value without the
    method *)
Definition upper_of (x : value) : option str :=
  match x with
  | PyStr s => Some (py_upper s)
  | PyNone | PyOther _ => None
  end.

(** The first two lines of [encode_banco]: the text that is searched. *)
Definition banco_norm (banco : value) : option str :=
  match upper_of (banco_or_default banco) with
  | Some up => Some (Re.sub re_marks [] (nfd up))
  | None => None
  end.

(** [encode_banco]; [None] when it raises. *)
Definition encode_banco (banco : value) (bancos_list : list str)
    : option (list float) :=
  match banco_norm banco with
  | Some text =>
      Some (encode_loop text bancos_list 0
              (repeat 0%float (length bancos_list)))
  | None => None
  end.

End BankEncoding.

(** ** Training data and the data frame *)

(** One element of [dados], the record list of the endpoint.  A field is
    [None] when the JSON value is [null]; the column [banco] holds a
    [value], as [encode_banco] tells a [null] from the NaN of a record
    without the key. *)
Module Dado.
Record t : Type := {
  descricao : option str;
  categoria : option str;
  tipo : option str;
  banco : value;
  valor : float;
  metodo : option str
}.
End Dado.

(** A row of the data frame that [prepare_dataset] returns: its index label
    (the position of the record in [dados]), the record, and the columns the
    function adds or overwrites. *)
Record row : Type := {
  index : nat;
  dado : Dado.t;
  descricao_norm : str;
  categoria : str;
  tipo : str;
  sample_weight : float;
  log_valor : float
}.

(** Dense or sparse matrices: the shape and the rows. *)
Record matrix : Type := {
  nrows : nat;
  ncols : nat;
  cells : list (list float)
}.

Fixpoint zip_rows (a b : list (list float)) : list (list float) :=
  match a, b with
  | x :: a', y :: b' => (x ++ y) :: zip_rows a' b'
  | _, _ => []
  end.

(** [scipy.sparse.hstack]: the blocks must have as many rows as each other
    ([None]: it raises). *)
Definition hstack2 (A B : matrix) : option matrix :=
  if (nrows A =? nrows B)%nat then
    Some {| nrows := nrows A; ncols := ncols A + ncols B;
            cells := zip_rows (cells A) (cells B) |}
  else None.

Definition hstack (blocks : list matrix) : option matrix :=
  match blocks with
  | [] => None
  | b :: bs =>
      fold_left (fun acc m => match acc with
                              | Some a => hstack2 a m
                              | None => None
                              end) bs (Some b)
  end.

(** [csr_matrix(np.array(rows))] for rows of one length: an empty list is a
    one-dimensional empty array, which becomes a 1 x 0 matrix. *)
Definition csr_of_rows (rows : list (list float)) : matrix :=
  match rows with
  | [] => {| nrows := 1; ncols := 0; cells := [[]] |}
  | r :: _ => {| nrows := length rows; ncols := length r; cells := rows |}
  end.

(** [csr_matrix(values.reshape(-1, 1))] *)
Definition csr_of_column (values : list float) : matrix :=
  {| nrows := length values; ncols := 1; cells := map (fun v => [v]) values |}.

(** A list comprehension whose elements may raise: the list of the results,
    or [None] as soon as one raises. *)
Fixpoint all_results {A : Type} (l : list (option A)) : option (list A) :=
  match l with
  | [] => Some []
  | Some x :: l' =>
      match all_results l' with
      | Some r => Some (x :: r)
      | None => None
      end
  | None :: _ => None
  end.

(** [X[index]] with a list of row numbers ([None]: IndexError) *)
Fixpoint take_rows (X : list (list float)) (idx : list nat)
    : option (list (list float)) :=
  match idx with
  | [] => Some []
  | i :: rest =>
      match nth_error X i, take_rows X rest with
      | Some r, Some l => Some (r :: l)
      | _, _ => None
      end
  end.

(** ** The artifacts *)

Record vocabulary_data : Type := {
  terms : list str;
  idf : list float;
  bancos : list str;
  n_features : nat;
  tfidf_size : nat;
  banco_size : nat;
  numeric_size : nat
}.

Record label_maps : Type := {
  lm_tipo : list str;
  lm_pj : list str;
  lm_pf : list str
}.

(** An entry of ["models"] in the training report (the split sizes and the
    time stamp of the report are left out). *)
Record model_report : Type := {
  accuracy : float;
  macro_f1 : float;
  classes : list str
}.

Record training_report : Type := {
  total_samples : nat;
  manual_corrections : nat;
  rep_tipo : model_report;
  rep_pj : model_report;
  rep_pf : model_report;
  n_features_total : nat;
  exported_files : list string
}.

(** What a run prints that reports a decision, and what it writes. *)
Inductive effect (model : Type) : Type :=
| ErroPoucosDados (n : nat)
| DatasetPreparado (n : nat)
| SkipUmaCategoria (t : string)
| SkipPoucosDados (t : string) (n : nat)
| WriteVocabulary (v : vocabulary_data)
| WriteOnnx (name : string) (m : model) (n_features : nat)
| WriteLabelMaps (l : label_maps)
| WriteReport (r : training_report).

Arguments ErroPoucosDados {model}.
Arguments WriteOnnx {model}.
Arguments DatasetPreparado {model}.
Arguments SkipUmaCategoria {model}.
Arguments SkipPoucosDados {model}.
Arguments WriteVocabulary {model}.
Arguments WriteLabelMaps {model}.
Arguments WriteReport {model}.

Definition writes_file {model : Type} (e : effect model) : bool :=
  match e with
  | WriteVocabulary _ | WriteOnnx _ _ _ | WriteLabelMaps _ | WriteReport _ => true
  | _ => false
  end.

(** How a run ends: [sys.exit(code)] or the end of [main] (code 0), or an
    exception that nothing catches. *)
Inductive status : Type :=
| Exit (code : Z)
| Raised.

(** The six arrays that [train_test_split] returns. *)
Record split : Type := {
  X_train : matrix;
  X_test : matrix;
  y_train : list str;
  y_test : list str;
  w_train : list float;
  w_test : list float
}.

(** The triple that [train_model] returns. *)
Record fitted (model report : Type) : Type := {
  fit_clf : model;
  fit_accuracy : float;
  fit_report : report
}.

Arguments fit_clf {model report} f.
Arguments fit_accuracy {model report} f.
Arguments fit_report {model report} f.

(** ** The pipeline *)

Section Pipeline.
Context `{UnicodeDB}.

(** The numeric and learning libraries: [np.log1p], the fitted
    [TfidfVectorizer] (its terms, its idf weights and the weight of a term
    in a document), [train_test_split] and [train_model] (which fits and
    evaluates an [SGDClassifier]; of the report it returns, the macro F1 is
    read). *)
Variable log1p : float -> float.
Variable tfidf_terms : list str -> list str.
Variable tfidf_idf : list str -> list float.
Variable tfidf_weight : list str -> str -> str -> float.
Variable model : Type.
Variable classification_report : Type.
Variable report_macro_f1 : classification_report -> float.
Variable train_test_split : matrix -> list str -> list float -> split.
Variable train_model :
  matrix -> list str -> list float -> matrix -> list str -> string ->
  fitted model classification_report.

Definition is_tipo (x : option str) : bool :=
  match x with
  | Some x => str_eqb x (u "PJ") || str_eqb x (u "PF")
  | None => false
  end.

Definition is_manual (m : option str) : bool :=
  match m with
  | Some m => str_eqb m (u "manual")
  | None => false
  end.

(** [categoria.notna() & (categoria != "")] *)
Definition has_categoria (c : option str) : bool :=
  match c with
  | Some (_ :: _) => true
  | _ => false
  end.

Fixpoint enumerate {A : Type} (i : nat) (l : list A) : list (nat * A) :=
  match l with
  | [] => []
  | x :: l' => (i, x) :: enumerate (S i) l'
  end.

Definition prepare_row (x : nat * Dado.t * str) : row :=
  let '(i, t, norm) := x in
  {| index := i;
     dado := t;
     descricao_norm := norm;
     categoria := match Dado.categoria t with Some c => c | None => [] end;
     tipo := match Dado.tipo t with
             | Some x => if is_tipo (Some x) then x else u "PJ"
             | None => u "PJ"
             end;
     sample_weight := if is_manual (Dado.metodo t) then 3%float else 1%float;
     log_valor := log1p (PrimFloat.abs (Dado.valor t)) |}.

Definition prepare_dataset (dados : list Dado.t) : list row :=
  let df := enumerate 0 dados in
  let df := map (fun x => (x, normalize_description (Dado.descricao (snd x)))) df in
  let df := filter (fun x => (0 <? length (snd x))%nat) df in
  let df := filter (fun x => has_categoria (Dado.categoria (snd (fst x)))) df in
  map prepare_row df.

(** [groupby(cat_col).size()] at one category *)
Definition count_categoria (df : list row) (c : str) : nat :=
  length (filter (fun r => str_eqb (categoria r) c) df).

Definition filter_rare_categories (df : list row) (min_samples : nat)
    : list row :=
  filter (fun r => (min_samples <=? count_categoria df (categoria r))%nat) df.

(** The result of the stage of one category model. *)
Record stage : Type := {
  acc : float;
  report : option classification_report;
  clf : option model;
  labels : list str;
  df_stage : list row
}.

(** Stages 2a and 2b: the same code for ["PJ"] and ["PF"].  The result is
    the effects of the stage and its variables, or [None] when indexing the
    feature matrix raises. *)
Definition category_stage (t : string) (df : list row) (X_full : matrix)
    : list (effect model) * option stage :=
  let df_t := filter (fun r => str_eqb (tipo r) (u t)) df in
  let df_t := filter_rare_categories df_t MIN_SAMPLES_PER_CLASS in
  if (10 <=? length df_t)%nat then
    match take_rows (cells X_full) (map index df_t) with
    | None => ([], None)
    | Some rows =>
        let X_t := {| nrows := length rows; ncols := ncols X_full; cells := rows |} in
        let y_t := map categoria df_t in
        let w_t := map sample_weight df_t in
        let t_labels := sorted (unique y_t) in
        if (2 <=? length t_labels)%nat then
          let sp := train_test_split X_t y_t w_t in
          let f :=
            train_model (X_train sp) (y_train sp) (w_train sp)
              (X_test sp) (y_test sp) (String.append "categorizer_" t) in
          ([], Some {| acc := fit_accuracy f; report := Some (fit_report f);
                       clf := Some (fit_clf f);
                       labels := t_labels; df_stage := df_t |})
        else
          ([SkipUmaCategoria t],
           Some {| acc := 0%float; report := None; clf := None;
                   labels := t_labels; df_stage := df_t |})
    end
  else
    ([SkipPoucosDados t (length df_t)],
     Some {| acc := 0%float; report := None; clf := None;
             labels := []; df_stage := df_t |}).

(** [export_to_onnx] of a model that may be [None] *)
Definition export_optional (name : string) (c : option model) (n : nat)
    : list (effect model) * list string :=
  match c with
  | Some m => ([WriteOnnx name m n], [name])
  | None => ([], [])
  end.

Definition stage_report (s : stage) : model_report :=
  {| accuracy := acc s;
     macro_f1 := match report s with
                 | Some r => report_macro_f1 r
                 | None => 0%float
                 end;
     classes := labels s |}.

(** The combined feature matrix of step 4; [None] when encoding a bank or
    stacking the blocks raises. *)
Definition features (df : list row) : option matrix :=
  let corpus := map descricao_norm df in
  let vocab := tfidf_terms corpus in
  let tfidf_matrix :=
    {| nrows := length corpus; ncols := length vocab;
       cells := map (fun doc => map (tfidf_weight corpus doc) vocab) corpus |} in
  match
    all_results
      (map (fun r => encode_banco (Dado.banco (dado r)) BANCOS_CONHECIDOS) df)
  with
  | None => None
  | Some banco_features =>
      let valor_features := map log_valor df in
      hstack [tfidf_matrix; csr_of_rows banco_features;
              csr_of_column valor_features]
  end.

Definition main (dados : list Dado.t) : status * list (effect model) :=
  if (length dados <? MIN_TOTAL_SAMPLES)%nat then
    (Exit 1, [ErroPoucosDados (length dados)])
  else
    let df := prepare_dataset dados in
    let log := [DatasetPreparado (length df)] in
    let corpus := map descricao_norm df in
    match features df with
    | None => (Raised, log)
    | Some X_full =>
        let n := ncols X_full in
        let vocabulary :=
          {| terms := tfidf_terms corpus;
             idf := tfidf_idf corpus;
             bancos := BANCOS_CONHECIDOS;
             n_features := n;
             tfidf_size := length (tfidf_terms corpus);
             banco_size := length BANCOS_CONHECIDOS;
             numeric_size := 1 |} in
        let log := log ++ [WriteVocabulary vocabulary] in
        let y_tipo := map tipo df in
        let weights := map sample_weight df in
        let sp := train_test_split X_full y_tipo weights in
        let f_tipo :=
          train_model (X_train sp) (y_train sp) (w_train sp)
            (X_test sp) (y_test sp) "categorizer_tipo" in
        let log := log ++ fst (category_stage "PJ" df X_full) in
        match snd (category_stage "PJ" df X_full) with
        | None => (Raised, log)
        | Some pj =>
            let log := log ++ fst (category_stage "PF" df X_full) in
            match snd (category_stage "PF" df X_full) with
            | None => (Raised, log)
            | Some pf =>
                let x1 := export_optional "categorizer_tipo.onnx" (Some (fit_clf f_tipo)) n in
                let x2 := export_optional "categorizer_pj.onnx" (clf pj) n in
                let x3 := export_optional "categorizer_pf.onnx" (clf pf) n in
                let exported := snd x1 ++ snd x2 ++ snd x3 in
                let maps :=
                  {| lm_tipo := [u "PF"; u "PJ"];
                     lm_pj := labels pj;
                     lm_pf := labels pf |} in
                let training :=
                  {| total_samples := length df;
                     manual_corrections :=
                       length (filter (fun r => is_manual (Dado.metodo (dado r))) df);
                     rep_tipo :=
                       {| accuracy := fit_accuracy f_tipo;
                          macro_f1 := report_macro_f1 (fit_report f_tipo);
                          classes := sorted (unique y_tipo) |};
                     rep_pj := stage_report pj;
                     rep_pf := stage_report pf;
                     n_features_total := n;
                     exported_files := exported |} in
                (Exit 0,
                 log ++ fst x1 ++ fst x2 ++ fst x3
                 ++ [WriteLabelMaps maps; WriteReport training])
            end
        end
    end.

End Pipeline.

Arguments main {H} log1p tfidf_terms tfidf_idf tfidf_weight [model classification_report]
  report_macro_f1 train_test_split train_model dados.
Arguments category_stage [model classification_report] train_test_split train_model
  t df X_full.

(** * Vocabulary of the properties *)

(** ** Positions in a text *)

(** Length of the longest prefix in a class. *)
Fixpoint span_len (p : cp -> bool) (s : str) : nat :=
  match s with
  | c :: s' => if p c then S (span_len p s') else 0
  | [] => 0
  end.

(** Whether a number of repetitions is within the upper bound. *)
Definition hi_ok (hi : option nat) (n : nat) : bool :=
  match hi with
  | None => true
  | Some h => (n <=? h)%nat
  end.

(** The code point before the position reached after reading [m]. *)
Definition last_of (prev : option cp) (m : str) : option cp :=
  match rev m with
  | [] => prev
  | c :: _ => Some c
  end.

Definition star_at (t : str) : bool :=
  match t with
  | c :: _ => (42 =? c)%N
  | [] => false
  end.

Definition ascii_opt (o : option cp) : bool :=
  match o with
  | Some c => is_ascii c
  | None => true
  end.

(** Position of the first name of the list that occurs in the text. *)
Fixpoint first_match (text : str) (names : list str) : option nat :=
  match names with
  | [] => None
  | b :: rest =>
      if contains b text then Some 0%nat
      else option_map S (first_match text rest)
  end.

(** [b] is a substring of [text]. *)
Definition occurs (b text : str) : Prop :=
  exists pre post, text = pre ++ b ++ post.

(** A code point of the Unicode block Combining Diacritical Marks, U+0300
    to U+036F: the grave, the acute, the circumflex, the tilde, the
    diaeresis, the cedilla and the other marks of that block. *)
Definition diacritical_mark (c : cp) : bool := ((768 <=? c) && (c <=? 879))%N.

(** Literals of the script. *)
Definition literal (c : cp) : Prop := In c (u "GATEWAY* ").

Section Vocabulary.
Context `{UnicodeDB}.
Import Re.

(** No word character follows. *)
Definition after_ok (s : str) : bool := negb (word_opt (hd_error s)).

Definition space_opt (o : option cp) : bool :=
  match o with
  | Some c => isspace c
  | None => false
  end.

(** The end of a pattern, and a word boundary before it. *)
Definition k_end : cont := fun _ _ n => Some n.
Definition k_boundary : cont :=
  fun p s n => if at_boundary p s then Some n else None.

(** ** The tokens that the script removes

    A run of four or more digits, and a date.  Whether one starts at a
    position is decided by the text from the position on ([card_head],
    [date_head]) and by whether a word character precedes it. *)
Definition tok_match (head : str -> bool) (prev : option cp) (s : str) : bool :=
  negb (word_opt prev) && head s.

Definition card_head (s : str) : bool :=
  (4 <=? span_len isdecimal s)%nat
  && after_ok (skipn (span_len isdecimal s) s).

Definition date_head (s : str) : bool :=
  match s with
  | c1 :: c2 :: c3 :: c4 :: c5 :: t =>
      isdecimal c1 && isdecimal c2 && (47 =? c3)%N
      && isdecimal c4 && isdecimal c5 && after_ok t
  | _ => false
  end.

(** Length of the optional year of a date, with its slash. *)
Definition date_year (t : str) : nat :=
  match t with
  | c6 :: t' =>
      if (47 =? c6)%N
         && ((2 <=? span_len isdecimal t')%nat
             && hi_ok (Some 4%nat) (span_len isdecimal t')
             && after_ok (skipn (span_len isdecimal t') t'))
      then S (span_len isdecimal t') else 0
  | [] => 0
  end.

(** The pattern matches at no position of the text. *)
Fixpoint free (r : regex) (prev : option cp) (s : str) : bool :=
  match match_at r prev s with
  | Some _ => false
  | None =>
      match s with
      | [] => true
      | c :: s' => free r (Some c) s'
      end
  end.

(** The same for a token. *)
Fixpoint tfree (head : str -> bool) (prev : option cp) (s : str) : bool :=
  negb (tok_match head prev s)
  && match s with
     | [] => true
     | c :: s' => tfree head (Some c) s'
     end.

(** A run of four or more digits between two word boundaries. *)
Definition standalone_digits (s : str) : Prop :=
  exists pre run post,
    s = pre ++ run ++ post /\
    (4 <= length run)%nat /\
    forallb isdecimal run = true /\
    word_opt (last_of None pre) = false /\
    after_ok post = true.


(** ** Edits that make no token

    [edit P p q s o]: the text [o] comes from [s] by copying code points (at
    positions where [P] holds), by cutting out pieces that start and end
    with a word character and stand between word boundaries, by replacing
    runs of white space by one space, and by dropping white space at the
    end.  [p] and [q] are the code points before the position in [s] and in
    [o]. *)
Inductive edit (P : option cp -> str -> Prop)
  : option cp -> option cp -> str -> str -> Prop :=
| edit_copy p q c s o :
    P p (c :: s) ->
    edit P (Some c) (Some c) s o ->
    edit P p q (c :: s) (c :: o)
| edit_cut p q m rest o :
    word_opt p = false ->
    word_opt (hd_error m) = true ->
    word_opt (last_of None m) = true ->
    after_ok rest = true ->
    edit P (last_of p m) q rest o ->
    edit P p q (m ++ rest) o
| edit_spaces p q m rest o :
    m <> [] ->
    forallb isspace m = true ->
    edit P (last_of p m) (Some 32%N) rest o ->
    edit P p q (m ++ rest) (32%N :: o)
| edit_rstrip p q m :
    forallb isspace m = true ->
    edit P p q m [].

(** When the state before the position differs on the two sides, the text
    goes on with a code point that is not a word character. *)
Definition compat (p q : option cp) (s : str) : Prop :=
  word_opt p = word_opt q \/ (word_opt q = false /\ after_ok s = true).

(** A match of the pattern is a piece that [edit_cut] may cut. *)
Definition cuttable (r : regex) : Prop :=
  forall p s n, match_at r p s = Some n ->
  exists m rest,
    s = m ++ rest /\ length m = n /\
    word_opt p = false /\
    word_opt (hd_error m) = true /\
    word_opt (last_of None m) = true /\
    after_ok rest = true.

(** ** The gateway rules *)

(** Whether the pattern of a rule matches the text (at its start). *)
Definition fires (rule : regex * str) (s : str) : bool :=
  match match_at (fst rule) None s with
  | Some _ => true
  | None => false
  end.

(** For each rule in turn, whether it matches the text that the rules
    before it have produced. *)
Fixpoint rewrites (rules : list (regex * str)) (s : str) : list bool :=
  match rules with
  | [] => []
  | r :: rs => fires r s :: rewrites rs (apply_rule s r)
  end.

(** What a rule matches starts with its literal, ends with the star, and
    is the literal and the star with at most one code point between. *)
Definition prefix_shape (p : string) (n : nat) (s : str) : Prop :=
  exists m rest,
    s = u p ++ m ++ rest /\ n = length (u p ++ m) /\
    last_of None (u p ++ m) = Some 42%N.

(** ** White space *)

(** Every white space code point is a space that no white space follows. *)
Fixpoint single_spaces (s : str) : bool :=
  match s with
  | [] => true
  | c :: s' =>
      (if isspace c then (c =? 32)%N && negb (space_opt (hd_error s')) else true)
      && single_spaces s'
  end.

(** ** The steps of the normalisation after the decomposition *)
Definition rewrite_steps (x : str) : str :=
  strip (sub re_spaces (u " ")
           (gateway (sub re_date [] (sub re_card [] (sub re_marks [] x))))).

End Vocabulary.

(** ** Patterns that agree on ASCII text *)

(** Two patterns of one shape whose classes agree on ASCII. *)
Inductive same_on_ascii : Re.regex -> Re.regex -> Prop :=
| same_eps : same_on_ascii Re.Eps Re.Eps
| same_bol : same_on_ascii Re.Bol Re.Bol
| same_wordb : same_on_ascii Re.WordB Re.WordB
| same_chr p1 p2 :
    (forall c, is_ascii c = true -> p1 c = p2 c) ->
    same_on_ascii (Re.Chr p1) (Re.Chr p2)
| same_cat a1 a2 b1 b2 :
    same_on_ascii a1 a2 -> same_on_ascii b1 b2 ->
    same_on_ascii (Re.Cat a1 b1) (Re.Cat a2 b2)
| same_opt a1 a2 :
    same_on_ascii a1 a2 -> same_on_ascii (Re.Opt a1) (Re.Opt a2)
| same_rep p1 p2 lo hi :
    (forall c, is_ascii c = true -> p1 c = p2 c) ->
    same_on_ascii (Re.Rep p1 lo hi) (Re.Rep p2 lo hi).

Definition same_cont (k1 k2 : Re.cont) : Prop :=
  forall p s n, ascii_opt p = true -> forallb is_ascii s = true ->
                k1 p s n = k2 p s n.

(** ** What a run wrote *)

(** The label maps and the report that a run wrote, and the model files. *)
Fixpoint written_label_maps {model : Type} (log : list (effect model))
    : option label_maps :=
  match log with
  | [] => None
  | WriteLabelMaps l :: _ => Some l
  | _ :: log' => written_label_maps log'
  end.

Fixpoint written_report {model : Type} (log : list (effect model))
    : option training_report :=
  match log with
  | [] => None
  | WriteReport r :: _ => Some r
  | _ :: log' => written_report log'
  end.

Fixpoint written_models {model : Type} (log : list (effect model))
    : list string :=
  match log with
  | [] => []
  | WriteOnnx name _ _ :: log' => name :: written_models log'
  | _ :: log' => written_models log'
  end.

(** ** The Basic Latin database *)

(** The database restricted to the Basic Latin block: Python's functions on
    ASCII text; a code point outside the block is left as it is and belongs
    to no class. *)
Lemma ascii_isdecimal_isalnum (c : cp) :
  ascii_isdecimal c = true -> ascii_isalnum c = true.
Proof. unfold ascii_isalnum. now intros ->. Qed.

Lemma ascii_isspace_not_isalnum (c : cp) :
  ascii_isspace c = true -> ascii_isalnum c = false.
Proof.
  unfold ascii_isspace, ascii_isalnum, ascii_isdecimal. intros Hs.
  repeat match goal with
         | |- context [(?a <=? ?b)%N] => destruct (N.leb_spec a b)
         | H : context [(?a <=? ?b)%N] |- _ => destruct (N.leb_spec a b)
         end; simpl in *; try reflexivity; try discriminate; lia.
Qed.

Definition BasicLatin : UnicodeDB := {|
  py_upper := map ascii_upper;
  nfd := fun s => s;
  isspace := ascii_isspace;
  isdecimal := ascii_isdecimal;
  isalnum := ascii_isalnum;
  py_upper_ascii := fun s _ => eq_refl;
  nfd_ascii := fun s _ => eq_refl;
  isspace_ascii := fun c _ => eq_refl;
  isdecimal_ascii := fun c _ => eq_refl;
  isalnum_ascii := fun c _ => eq_refl;
  isdecimal_isalnum := ascii_isdecimal_isalnum;
  isspace_not_isalnum := ascii_isspace_not_isalnum;
  nfd_decomposed := fun s c _ => eq_refl
|}.

(** ** Sample data

    A trivial instance of the learning libraries and some records, for
    running the pipeline on concrete inputs. *)
Module Sample.

Definition log1p (x : float) : float := x.
Definition tfidf_terms (corpus : list str) : list str := unique corpus.
Definition tfidf_idf (corpus : list str) : list float :=
  map (fun _ => 1%float) (unique corpus).
Definition tfidf_weight (corpus : list str) (doc term : str) : float :=
  if str_eqb doc term then 1%float else 0%float.
Definition report_macro_f1 (r : unit) : float := 1%float.
Definition train_test_split (X : matrix) (y : list str) (w : list float) : split :=
  {| X_train := X; X_test := X; y_train := y; y_test := y;
     w_train := w; w_test := w |}.
Definition train_model (X : matrix) (y : list str) (w : list float)
    (Xt : matrix) (yt : list str) (name : string) : fitted unit unit :=
  {| fit_clf := tt; fit_accuracy := 1%float; fit_report := tt |}.

Definition dado (d c t : string) : Dado.t :=
  {| Dado.descricao := Some (u d);
     Dado.categoria := Some (u c);
     Dado.tipo := Some (u t);
     Dado.banco := PyStr (u "Nubank");
     Dado.valor := 10%float;
     Dado.metodo := Some (u "manual") |}.

(** 60 records: 50 of type PJ with the single category "Fornecedores", and
    10 of type PF with two categories of 5 records each. *)
Definition one_pj_category : list Dado.t :=
  repeat (dado "PAG*LOJA" "Fornecedores" "PJ") 50
  ++ repeat (dado "MERCADO" "Alimentacao" "PF") 5
  ++ repeat (dado "FARMACIA" "Saude" "PF") 5.

End Sample.

(** ** Vocabulary of the further properties *)













Arguments labels {model classification_report} s.
Arguments clf {model classification_report} s.
Arguments acc {model classification_report} s.
Arguments report {model classification_report} s.
Arguments df_stage {model classification_report} s.







(** * Properties *)

(** ** Lists *)

Lemma enumerate_In {A : Type} (l : list A) (k i : nat) (x : A) :
  nth_error l i = Some x -> In ((k + i)%nat, x) (enumerate k l).
Proof.
  revert k i. induction l as [|y l IH]; intros k [|i] E; simpl in *; try discriminate.
  - injection E as ->. left. f_equal. lia.
  - right. replace (k + S i)%nat with (S k + i)%nat by lia. now apply IH.
Qed.

Lemma set_item_length (vec : list float) (i : nat) (v : float) :
  length (set_item vec i v) = length vec.
Proof.
  revert i. induction vec as [|x vec IH]; intros [|i]; simpl; auto.
Qed.

Lemma set_item_nth_same (vec : list float) (i : nat) (v dflt : float) :
  (i < length vec)%nat -> nth i (set_item vec i v) dflt = v.
Proof.
  revert i. induction vec as [|x vec IH]; intros [|i] Hi; simpl in *; try lia; auto.
  apply IH. lia.
Qed.

Lemma set_item_nth_other (vec : list float) (i j : nat) (v dflt : float) :
  i <> j -> nth j (set_item vec i v) dflt = nth j vec dflt.
Proof.
  revert i j. induction vec as [|x vec IH]; intros [|i] [|j] Hij; simpl; auto.
  congruence.
Qed.

Lemma nth_zeros (n j : nat) : nth j (repeat 0%float n) 0%float = 0%float.
Proof.
  revert j. induction n as [|n IH]; intros [|j]; simpl; auto.
Qed.

Lemma float_one_not_zero : 1%float <> 0%float.
Proof.
  intro E.
  assert (Hb : PrimFloat.eqb 1 0 = PrimFloat.eqb 0 0) by (rewrite E; reflexivity).
  vm_compute in Hb. discriminate.
Qed.

(** ** Character classes *)

Section ClassFacts.
Context `{UnicodeDB}.

Lemma digit_is_word (c : cp) : isdecimal c = true -> is_word c = true.
Proof. intros Hd. unfold is_word. now rewrite (isdecimal_isalnum c Hd). Qed.

Lemma space_not_word (c : cp) : isspace c = true -> is_word c = false.
Proof.
  intros Hs. unfold is_word. rewrite (isspace_not_isalnum c Hs). simpl.
  destruct (N.eqb_spec c 95) as [->|]; [|reflexivity].
  rewrite isspace_ascii in Hs by reflexivity. discriminate.
Qed.

Lemma space_not_digit (c : cp) : isspace c = true -> isdecimal c = false.
Proof.
  intros Hs. destruct (isdecimal c) eqn:Hd; [|reflexivity].
  apply digit_is_word in Hd. apply space_not_word in Hs. congruence.
Qed.

Lemma not_word_not_digit (c : cp) : is_word c = false -> isdecimal c = false.
Proof.
  intros Hw. destruct (isdecimal c) eqn:Hd; [|reflexivity].
  apply digit_is_word in Hd. congruence.
Qed.

Lemma is_word_ascii (c : cp) :
  is_ascii c = true -> is_word c = ascii_isalnum c || (c =? 95)%N.
Proof. intros Ha. unfold is_word. now rewrite isalnum_ascii. Qed.

End ClassFacts.

(** ** The matcher on the patterns of the script *)

Section MatcherFacts.
Context `{UnicodeDB}.
Import Re.

Lemma last_of_cons (prev : option cp) (c : cp) (m : str) :
  last_of prev (c :: m) = last_of (Some c) m.
Proof.
  unfold last_of. simpl. destruct (rev m) eqn:E; simpl; reflexivity.
Qed.

Lemma last_of_app (prev : option cp) (a b : str) :
  last_of prev (a ++ b) = last_of (last_of prev a) b.
Proof.
  revert prev. induction a as [|c a IH]; intros prev; simpl.
  - reflexivity.
  - rewrite !last_of_cons. apply IH.
Qed.

Lemma span_len_le (p : cp -> bool) (s : str) : (span_len p s <= length s)%nat.
Proof.
  induction s as [|c s IH]; simpl; [lia|]. destruct (p c); simpl; lia.
Qed.

Lemma span_len_all (p : cp -> bool) (s : str) :
  forallb p (firstn (span_len p s) s) = true.
Proof.
  induction s as [|c s IH]; simpl; [reflexivity|].
  destruct (p c) eqn:E; simpl; [now rewrite E|reflexivity].
Qed.

Lemma span_len_next (p : cp -> bool) (s : str) :
  match skipn (span_len p s) s with
  | c :: _ => p c = false
  | [] => True
  end.
Proof.
  induction s as [|c s IH]; simpl; [exact I|].
  destruct (p c) eqn:E; simpl; [exact IH|exact E].
Qed.

(** Greedy repetition before the end of the pattern. *)
Lemma rep_end (p : cp -> bool) (s : str) : forall lo prev n,
  rep p lo None prev s n k_end =
  if (lo <=? span_len p s)%nat then Some (n + span_len p s)%nat else None.
Proof.
  induction s as [|c s IH]; intros lo prev n; simpl.
  - destruct lo; simpl; [now rewrite Nat.add_0_r|reflexivity].
  - destruct (p c) eqn:E; simpl.
    + rewrite IH. destruct lo as [|lo]; simpl.
      * now rewrite Nat.add_succ_r.
      * rewrite Nat.add_succ_r. now destruct (lo <=? span_len p s)%nat.
    + destruct lo; simpl; [now rewrite Nat.add_0_r|reflexivity].
Qed.

(** Greedy repetition of digits before a word boundary: only the whole run
    of digits can end at a boundary. *)
Lemma rep_digits_boundary (s : str) : forall lo hi prev n,
  (lo = 0%nat -> word_opt prev = true) ->
  rep isdecimal lo hi prev s n k_boundary =
  if (lo <=? span_len isdecimal s)%nat && hi_ok hi (span_len isdecimal s)
     && after_ok (skipn (span_len isdecimal s) s)
  then Some (n + span_len isdecimal s)%nat else None.
Proof.
  induction s as [|c s IH]; intros lo hi prev n Hprev.
  - simpl. destruct lo as [|lo]; simpl.
    + unfold k_boundary, at_boundary. simpl. rewrite (Hprev eq_refl). simpl.
      rewrite Nat.add_0_r. now destruct hi.
    + reflexivity.
  - cbn [rep span_len]. destruct (isdecimal c) eqn:Hd.
    + assert (Hw : is_word c = true) by now apply digit_is_word.
      assert (Hstop : (if (lo =? 0)%nat then k_boundary prev (c :: s) n else None) = None).
      { destruct lo; simpl; [|reflexivity].
        unfold k_boundary, at_boundary. simpl. now rewrite (Hprev eq_refl), Hw. }
      rewrite Hstop. cbn [skipn].
      destruct hi as [[|h]|]; cbn [more andb option_map hi_ok].
      * simpl. now rewrite andb_false_r.
      * rewrite IH by (intros _; exact Hw).
        replace (pred lo <=? span_len isdecimal s)%nat
          with (lo <=? S (span_len isdecimal s))%nat
          by (destruct lo; reflexivity).
        cbn [pred hi_ok Nat.leb]. rewrite Nat.add_succ_r. simpl.
        now destruct (_ && _ && _).
      * rewrite IH by (intros _; exact Hw).
        replace (pred lo <=? span_len isdecimal s)%nat
          with (lo <=? S (span_len isdecimal s))%nat
          by (destruct lo; reflexivity).
        cbn [hi_ok]. rewrite Nat.add_succ_r. simpl.
        now destruct (_ && _ && _).
    + cbn [andb skipn]. destruct lo as [|lo]; simpl.
      * unfold k_boundary, at_boundary, after_ok. simpl.
        rewrite (Hprev eq_refl). simpl. rewrite Nat.add_0_r.
        destruct hi; simpl; now destruct (is_word c).
      * reflexivity.
Qed.

(** Exactly two of a class. *)
Lemma rep_two (p : cp -> bool) (s : str) (prev : option cp) (n : nat) (k : cont) :
  rep p 2 (Some 2%nat) prev s n k =
  match s with
  | c1 :: c2 :: s' =>
      if p c1 && p c2 then k (Some c2) s' (S (S n)) else None
  | _ => None
  end.
Proof.
  destruct s as [|c1 [|c2 s']]; simpl; try reflexivity.
  - now destruct (p c1).
  - destruct (p c1); simpl; [|reflexivity].
    destruct (p c2); simpl; [|reflexivity].
    destruct s' as [|c3 s'']; simpl.
    + now destruct (k (Some c2) [] (S (S n))).
    + rewrite andb_false_r. now destruct (k (Some c2) (c3 :: s'') (S (S n))).
Qed.

(** A literal string. *)
Lemma run_Str (l : str) : forall prev s n k,
  run (Str l) prev s n k =
  if starts_with l s
  then k (last_of prev l) (skipn (length l) s) (n + length l)%nat
  else None.
Proof.
  induction l as [|c l IH]; intros prev s n k; simpl.
  - now rewrite Nat.add_0_r.
  - destruct s as [|x s]; [reflexivity|].
    destruct (c =? x)%N eqn:E; simpl; [|reflexivity].
    rewrite IH. apply N.eqb_eq in E. subst x.
    rewrite last_of_cons, Nat.add_succ_r. reflexivity.
Qed.

End MatcherFacts.
(** *** The digit run and the date *)

Section Tokens.
Context `{UnicodeDB}.
Import Re.

Lemma card_head_digit (s : str) :
  card_head s = true -> exists c s', s = c :: s' /\ isdecimal c = true.
Proof.
  unfold card_head. destruct s as [|c s']; simpl; [discriminate|].
  destruct (isdecimal c) eqn:E; [eauto|discriminate].
Qed.

Lemma date_head_digit (s : str) :
  date_head s = true -> exists c s', s = c :: s' /\ isdecimal c = true.
Proof.
  destruct s as [|c1 [|c2 [|c3 [|c4 [|c5 t]]]]]; simpl; try discriminate.
  destruct (isdecimal c1) eqn:E; [eauto|discriminate].
Qed.

Lemma boundary_before_digit (prev : option cp) (c : cp) (s : str) :
  isdecimal c = true -> at_boundary prev (c :: s) = negb (word_opt prev).
Proof.
  intros Hd. unfold at_boundary. simpl. rewrite (digit_is_word c Hd).
  now destruct (word_opt prev).
Qed.

Lemma match_card (prev : option cp) (s : str) :
  match_at re_card prev s =
  if tok_match card_head prev s then Some (span_len isdecimal s) else None.
Proof.
  unfold match_at, re_card. cbn [run].
  change (fun prev' s' n' => if at_boundary prev' s' then Some n' else None)
    with k_boundary.
  rewrite rep_digits_boundary by discriminate.
  unfold tok_match, card_head. cbn [hi_ok]. rewrite andb_true_r.
  destruct s as [|c s'].
  - simpl. now destruct (at_boundary prev []), (word_opt prev).
  - destruct (isdecimal c) eqn:Hd.
    + rewrite boundary_before_digit by exact Hd.
      destruct (negb (word_opt prev)); reflexivity.
    + simpl. rewrite Hd. simpl.
      now destruct (at_boundary prev (c :: s')), (word_opt prev).
Qed.

Lemma match_date (prev : option cp) (s : str) :
  match_at re_date prev s =
  if tok_match date_head prev s then Some (5 + date_year (skipn 5 s))%nat else None.
Proof.
  unfold match_at, re_date, Lit. cbn [run]. rewrite rep_two.
  unfold tok_match.
  destruct s as [|c1 [|c2 [|c3 [|c4 [|c5 t]]]]];
    try (cbn [date_head]; rewrite andb_false_r;
         destruct (at_boundary prev _); try reflexivity;
         repeat match goal with
                | |- context [isdecimal ?c] => destruct (isdecimal c)
                | |- context [(47 =? ?c)%N] => destruct (47 =? c)%N
                end; cbn [andb]; rewrite ?rep_two; reflexivity).
  destruct (isdecimal c1) eqn:H1;
    [|cbn [date_head]; rewrite H1; simpl; rewrite andb_false_r;
      now destruct (at_boundary prev _)].
  rewrite boundary_before_digit by exact H1.
  destruct (word_opt prev); [reflexivity|]. cbn [negb andb].
  cbn [date_head]. rewrite H1. cbn [andb].
  destruct (isdecimal c2) eqn:H2; [|reflexivity]. cbn [andb].
  destruct (47 =? c3)%N eqn:H3; [|reflexivity]. cbn [andb].
  rewrite rep_two.
  destruct (isdecimal c4) eqn:H4; [|reflexivity]. cbn [andb].
  destruct (isdecimal c5) eqn:H5; [|reflexivity]. cbn [andb skipn].
  change (fun prev' s' n' => if at_boundary prev' s' then Some n' else None)
    with k_boundary.
  assert (Hk : k_boundary (Some c5) t 5 = if after_ok t then Some 5%nat else None).
  { unfold k_boundary, at_boundary, after_ok. simpl.
    rewrite (digit_is_word c5 H5). now destruct (word_opt (hd_error t)). }
  unfold k_boundary in Hk.
  destruct t as [|c6 t'].
  - rewrite Hk. reflexivity.
  - cbn [date_year]. destruct (47 =? c6)%N eqn:H6; cbn [andb].
    + rewrite rep_digits_boundary by discriminate.
      assert (Hok : after_ok (c6 :: t') = true).
      { apply N.eqb_eq in H6. subst c6. unfold after_ok. simpl.
        rewrite is_word_ascii by reflexivity. reflexivity. }
      rewrite Hk, Hok.
      destruct (_ && _ && _); reflexivity.
    + rewrite Hk. destruct (after_ok (c6 :: t')); reflexivity.
Qed.

Lemma match_spaces (prev : option cp) (s : str) :
  match_at re_spaces prev s =
  if (1 <=? span_len isspace s)%nat then Some (span_len isspace s) else None.
Proof.
  unfold match_at, re_spaces. cbn [run].
  change (fun (_ : option cp) (_ : str) (n : nat) => Some n) with k_end.
  now rewrite rep_end.
Qed.

Lemma match_marks (prev : option cp) (s : str) :
  match_at re_marks prev s =
  match s with
  | c :: _ => if is_combining_mark c then Some 1%nat else None
  | [] => None
  end.
Proof. reflexivity. Qed.

End Tokens.
(** ** Substitution *)

Section SubFacts.
Context `{UnicodeDB}.
Import Re.

Lemma sub_from_skip (r : regex) (repl : str) (j : nat) : forall s prev,
  (j <= length s)%nat ->
  sub_from r repl prev s j =
  sub_from r repl (last_of prev (firstn j s)) (skipn j s) 0.
Proof.
  induction j as [|j IH]; intros s prev Hj.
  - reflexivity.
  - destruct s as [|c s]; simpl in Hj; [lia|].
    cbn [sub_from firstn skipn]. rewrite last_of_cons. apply IH. lia.
Qed.

(** One step of the scan at a position where the pattern matches a
    non-empty text. *)
Lemma sub_from_match (r : regex) (repl : str) (prev : option cp) (m rest : str) :
  m <> [] ->
  match_at r prev (m ++ rest) = Some (length m) ->
  sub_from r repl prev (m ++ rest) 0 =
  repl ++ sub_from r repl (last_of prev m) rest 0.
Proof.
  intros Hm Hmatch. destruct m as [|c m]; [congruence|].
  cbn [sub_from app length] in *. rewrite Hmatch. f_equal.
  rewrite sub_from_skip by (rewrite length_app; lia).
  rewrite firstn_app, Nat.sub_diag, firstn_all, firstn_O, app_nil_r.
  rewrite skipn_app, Nat.sub_diag, skipn_all, skipn_O.
  now rewrite last_of_cons.
Qed.

Lemma sub_from_nomatch (r : regex) (repl : str) (prev : option cp) (c : cp) (s : str) :
  match_at r prev (c :: s) = None ->
  sub_from r repl prev (c :: s) 0 = c :: sub_from r repl (Some c) s 0.
Proof. intros E. cbn [sub_from]. now rewrite E. Qed.

(** The code points of the result come from the subject or from the
    replacement. *)
Lemma sub_from_In (r : regex) (repl : str) (x : cp) : forall s prev j,
  In x (sub_from r repl prev s j) -> In x s \/ In x repl.
Proof.
  induction s as [|c s IH]; intros prev j Hin.
  - destruct j; cbn [sub_from] in Hin; [|contradiction].
    destruct (match_at r prev []) as [[|n]|]; simpl in Hin;
      try rewrite app_nil_r in Hin; auto.
  - destruct j; cbn [sub_from] in Hin.
    + destruct (match_at r prev (c :: s)) as [[|n]|].
      * apply in_app_or in Hin. destruct Hin as [Hin|[->|Hin]]; auto.
        -- left; now left.
        -- apply IH in Hin. destruct Hin; auto. left; now right.
      * apply in_app_or in Hin. destruct Hin as [Hin|Hin]; auto.
        apply IH in Hin. destruct Hin; auto. left; now right.
      * destruct Hin as [->|Hin]; [left; now left|].
        apply IH in Hin. destruct Hin; auto. left; now right.
    + apply IH in Hin. destruct Hin; auto. left; now right.
Qed.

Lemma sub_In (r : regex) (repl : str) (x : cp) (s : str) :
  In x (sub r repl s) -> In x s \/ In x repl.
Proof. apply sub_from_In. Qed.

Lemma sub_from_free (r : regex) (repl : str) : forall s prev,
  free r prev s = true -> sub_from r repl prev s 0 = s.
Proof.
  induction s as [|c s IH]; intros prev Hf; cbn [free sub_from] in *.
  - now destruct (match_at r prev []).
  - destruct (match_at r prev (c :: s)); [discriminate|].
    f_equal. now apply IH.
Qed.

Lemma tfree_prev (head : str -> bool) (p p' : option cp) (s : str) :
  word_opt p = word_opt p' -> tfree head p s = tfree head p' s.
Proof.
  intros E. destruct s; cbn [tfree]; unfold tok_match; now rewrite E.
Qed.

Lemma tfree_app (head : str -> bool) (m : str) : forall p rest,
  tfree head p (m ++ rest) = true -> tfree head (last_of p m) rest = true.
Proof.
  induction m as [|c m IH]; intros p rest Hf.
  - exact Hf.
  - rewrite last_of_cons. apply IH.
    cbn [app tfree] in Hf. now apply andb_prop in Hf.
Qed.

Lemma free_card (p : option cp) (s : str) :
  free re_card p s = tfree card_head p s.
Proof.
  revert p. induction s as [|c s IH]; intros p; cbn [free tfree];
    rewrite match_card; destruct (tok_match card_head p _); try reflexivity.
  apply IH.
Qed.

Lemma free_date (p : option cp) (s : str) :
  free re_date p s = tfree date_head p s.
Proof.
  revert p. induction s as [|c s IH]; intros p; cbn [free tfree];
    rewrite match_date; destruct (tok_match date_head p _); try reflexivity.
  apply IH.
Qed.

End SubFacts.
(** ** Edits that make no token *)

Section Edits.
Context `{UnicodeDB}.
Import Re.

Lemma spaces_hd_not_word (m rest : str) :
  m <> [] -> forallb isspace m = true -> word_opt (hd_error (m ++ rest)) = false.
Proof.
  destruct m as [|c m]; [congruence|]. simpl. intros _ Hs.
  apply andb_prop in Hs. now apply space_not_word.
Qed.

Lemma spaces_last_not_word (p : option cp) (m : str) :
  m <> [] -> forallb isspace m = true -> word_opt (last_of p m) = false.
Proof.
  revert p. induction m as [|c m IH]; intros p Hm Hs; [congruence|].
  rewrite last_of_cons. simpl in Hs. apply andb_prop in Hs. destruct Hs as [Hc Hs].
  destruct m as [|c' m'].
  - simpl. now apply space_not_word.
  - apply IH; [discriminate|exact Hs].
Qed.

Lemma spaces_after_ok (m : str) : forallb isspace m = true -> after_ok m = true.
Proof.
  destruct m as [|c m]; [reflexivity|]. simpl. intros Hs.
  apply andb_prop in Hs. unfold after_ok. simpl.
  now rewrite (space_not_word c (proj1 Hs)).
Qed.

Lemma space_32 : isspace 32%N = true.
Proof. now rewrite isspace_ascii. Qed.

Lemma not_word_32 : is_word 32%N = false.
Proof. apply space_not_word, space_32. Qed.

(** After a word character, what the edit yields starts as the text does. *)
Lemma edit_after_word_cons [P p q s x o] :
  edit P p q s (x :: o) ->
  word_opt p = true ->
  x <> 32%N ->
  exists s', s = x :: s' /\ edit P (Some x) (Some x) s' o.
Proof.
  intros E Hp Hx. inversion E; subst.
  - eauto.
  - congruence.
  - congruence.
Qed.

(** A word character of the result was copied. *)
Lemma edit_word_cons [P p q s o'] :
  edit P p q s o' ->
  forall x o, o' = x :: o -> is_word x = true ->
  exists s', s = x :: s' /\ edit P (Some x) (Some x) s' o.
Proof.
  induction 1 as [p q c s o HP E IH|p q m rest o Hp Hh Hl Ha E IH
                  |p q m rest o Hm Hs E IH|p q m Hs];
    intros x o0 Eq Hx.
  - injection Eq as -> ->. eauto.
  - destruct (IH x o0 Eq Hx) as [s' [-> _]].
    unfold after_ok in Ha. simpl in Ha. now rewrite Hx in Ha.
  - injection Eq as <- <-. now rewrite not_word_32 in Hx.
  - discriminate.
Qed.

Lemma edit_after_word_ok [P p q s o] :
  edit P p q s o -> word_opt p = true -> after_ok o = true -> after_ok s = true.
Proof.
  intros E Hp Ho. inversion E; subst.
  - exact Ho.
  - congruence.
  - unfold after_ok. now rewrite spaces_hd_not_word.
  - now apply spaces_after_ok.
Qed.

(** After a word character the run of digits is the same on both sides. *)
Lemma edit_digits [P p q s o] :
  edit P p q s o ->
  word_opt p = true ->
  span_len isdecimal o = span_len isdecimal s /\
  after_ok (skipn (span_len isdecimal o) o)
  = after_ok (skipn (span_len isdecimal s) s).
Proof.
  induction 1 as [p q c s o HP E IH|p q m rest o Hp' Hh Hl Ha E IH
                  |p q m rest o Hm Hs E IH|p q m Hs];
    intros Hp.
  - cbn [span_len]. destruct (isdecimal c) eqn:Hd.
    + destruct IH as [IH1 IH2]; [now apply digit_is_word|].
      cbn [skipn]. split; [now rewrite IH1|exact IH2].
    + split; reflexivity.
  - congruence.
  - destruct m as [|c m]; [congruence|]. simpl in Hs.
    apply andb_prop in Hs. destruct Hs as [Hc Hs].
    cbn [app span_len]. rewrite (space_not_digit c Hc).
    rewrite (space_not_digit 32%N space_32).
    cbn [skipn]. unfold after_ok. simpl.
    now rewrite not_word_32, (space_not_word c Hc).
  - destruct m as [|c m]; [split; reflexivity|]. simpl in Hs.
    apply andb_prop in Hs. destruct Hs as [Hc Hs].
    cbn [span_len]. rewrite (space_not_digit c Hc).
    cbn [skipn]. unfold after_ok. simpl.
    now rewrite (space_not_word c Hc).
Qed.

Lemma card_head_edit [P c s o] :
  edit P (Some c) (Some c) s o ->
  card_head (c :: o) = true -> card_head (c :: s) = true.
Proof.
  intros E Hh. unfold card_head in *. cbn [span_len] in *.
  destruct (isdecimal c) eqn:Hd; [|discriminate].
  destruct (edit_digits E) as [E1 E2]; [now apply digit_is_word|].
  cbn [skipn] in *. now rewrite <- E2, <- E1.
Qed.

Lemma date_head_edit [P c s o] :
  edit P (Some c) (Some c) s o ->
  date_head (c :: o) = true -> date_head (c :: s) = true.
Proof.
  intros E Hh.
  destruct o as [|c2 [|c3 [|c4 [|c5 t]]]]; try discriminate.
  cbn [date_head] in Hh.
  apply andb_prop in Hh. destruct Hh as [Hh Hok].
  apply andb_prop in Hh. destruct Hh as [Hh Hd5].
  apply andb_prop in Hh. destruct Hh as [Hh Hd4].
  apply andb_prop in Hh. destruct Hh as [Hh Hs3].
  apply andb_prop in Hh. destruct Hh as [Hd1 Hd2].
  apply N.eqb_eq in Hs3. subst c3.
  destruct (edit_word_cons E _ _ eq_refl (digit_is_word c2 Hd2)) as [s2 [-> E2]].
  destruct (edit_after_word_cons E2) as [s3 [-> E3]];
    [now apply digit_is_word|discriminate|].
  destruct (edit_word_cons E3 _ _ eq_refl (digit_is_word c4 Hd4)) as [s4 [-> E4]].
  destruct (edit_word_cons E4 _ _ eq_refl (digit_is_word c5 Hd5)) as [s5 [-> E5]].
  cbn [date_head]. rewrite Hd1, Hd2, Hd4, Hd5. cbn [andb N.eqb Pos.eqb].
  apply (edit_after_word_ok E5); [now apply digit_is_word|assumption].
Qed.

Section Preservation.
Variable head : str -> bool.
Hypothesis head_digit :
  forall s, head s = true -> exists c s', s = c :: s' /\ isdecimal c = true.
Hypothesis head_edit :
  forall P c s o, edit P (Some c) (Some c) s o ->
                  head (c :: o) = true -> head (c :: s) = true.

Lemma head_not_word (c : cp) (s : str) : is_word c = false -> head (c :: s) = false.
Proof.
  intros Hw. destruct (head (c :: s)) eqn:E; [|reflexivity].
  destruct (head_digit _ E) as [c' [s' [[= <- <-] Hd]]].
  apply digit_is_word in Hd. congruence.
Qed.

Lemma head_nil : head [] = false.
Proof.
  destruct (head []) eqn:E; [|reflexivity].
  destruct (head_digit _ E) as [c' [s' [[=] _]]].
Qed.

(** An edit of a text without the token, or an edit that copies only where
    the token does not match, yields a text without the token. *)
Theorem edit_tfree P p q s o :
  edit P p q s o ->
  compat p q s ->
  tfree head p s = true \/ (forall p' s', P p' s' -> tok_match head p' s' = false) ->
  tfree head q o = true.
Proof.
  induction 1 as [p q c s o HP E IH|p q m rest o Hp Hh Hl Ha E IH
                  |p q m rest o Hm Hs E IH|p q m Hs];
    intros Hc Hfree.
  - cbn [tfree]. apply andb_true_intro. split.
    + assert (Hno : tok_match head p (c :: s) = false).
      { destruct Hfree as [Hf|Hg]; [|now apply Hg].
        cbn [tfree] in Hf. apply andb_prop in Hf.
        now apply negb_true_iff. }
      apply negb_true_iff. unfold tok_match in *.
      destruct (word_opt q) eqn:Hq; [reflexivity|]. cbn [negb andb].
      destruct (head (c :: o)) eqn:Ho; [|reflexivity].
      apply (head_edit _ _ _ _ E) in Ho. rewrite Ho in Hno.
      destruct Hc as [Hpq|[_ Hok]].
      * rewrite Hpq, Hq in Hno. discriminate.
      * unfold after_ok in Hok. simpl in Hok. apply negb_true_iff in Hok.
        now rewrite (head_not_word c s Hok) in Ho.
    + apply IH; [now left|].
      destruct Hfree as [Hf|Hg]; [left|now right].
      cbn [tfree] in Hf. now apply andb_prop in Hf.
  - apply IH.
    + right. split; [|exact Ha].
      destruct Hc as [Hpq|[Hq _]]; congruence.
    + destruct Hfree as [Hf|Hg]; [left|now right]. now apply tfree_app.
  - cbn [tfree]. apply andb_true_intro. split.
    + apply negb_true_iff. unfold tok_match.
      replace (head _) with false; [apply andb_false_r|].
      symmetry. apply head_not_word, not_word_32.
    + apply IH.
      * left. rewrite spaces_last_not_word by assumption.
        simpl. now rewrite not_word_32.
      * destruct Hfree as [Hf|Hg]; [left|now right]. now apply tfree_app.
  - cbn [tfree]. unfold tok_match. now rewrite head_nil, andb_false_r.
Qed.

End Preservation.

Lemma tfree_card_edit P p q s o :
  edit P p q s o ->
  compat p q s ->
  tfree card_head p s = true
  \/ (forall p' s', P p' s' -> tok_match card_head p' s' = false) ->
  tfree card_head q o = true.
Proof. apply edit_tfree; [exact card_head_digit|exact (@card_head_edit)]. Qed.

Lemma tfree_date_edit P p q s o :
  edit P p q s o ->
  compat p q s ->
  tfree date_head p s = true
  \/ (forall p' s', P p' s' -> tok_match date_head p' s' = false) ->
  tfree date_head q o = true.
Proof. apply edit_tfree; [exact date_head_digit|exact (@date_head_edit)]. Qed.

End Edits.
(** ** The substitutions of the script as edits *)

Section SubEdits.
Context `{UnicodeDB}.
Import Re.

Lemma forallb_last (p : cp -> bool) (m : str) (q : option cp) :
  m <> [] -> forallb p m = true ->
  exists c, last_of q m = Some c /\ p c = true.
Proof.
  revert q. induction m as [|c m IH]; intros q Hm Hp; [congruence|].
  rewrite last_of_cons. simpl in Hp. apply andb_prop in Hp. destruct Hp as [Hc Hp].
  destruct m as [|c' m']; [exists c; auto|].
  apply IH; [discriminate|exact Hp].
Qed.

Lemma digits_last_word (m : str) :
  m <> [] -> forallb isdecimal m = true -> word_opt (last_of None m) = true.
Proof.
  intros Hm Hd. destruct (forallb_last isdecimal m None Hm Hd) as [c [-> Hc]].
  simpl. now apply digit_is_word.
Qed.

Lemma card_cuttable : cuttable re_card.
Proof.
  intros p s n Hm. rewrite match_card in Hm.
  destruct (tok_match card_head p s) eqn:Ht; [|discriminate].
  injection Hm as <-. unfold tok_match in Ht.
  apply andb_prop in Ht. destruct Ht as [Hp Hh].
  apply negb_true_iff in Hp.
  pose proof (span_len_le isdecimal s) as Hle.
  pose proof (span_len_all isdecimal s) as Hall.
  unfold card_head in Hh. apply andb_prop in Hh. destruct Hh as [H4 Hok].
  apply Nat.leb_le in H4.
  exists (firstn (span_len isdecimal s) s), (skipn (span_len isdecimal s) s).
  split; [now rewrite firstn_skipn|].
  split; [rewrite length_firstn; lia|].
  split; [exact Hp|].
  assert (Hne : firstn (span_len isdecimal s) s <> []).
  { intros E. apply (f_equal (@length cp)) in E.
    rewrite length_firstn in E. simpl in E. lia. }
  split; [|split; [now apply digits_last_word|exact Hok]].
  destruct (firstn (span_len isdecimal s) s) as [|c m]; [congruence|].
  simpl in *. apply andb_prop in Hall. now apply digit_is_word.
Qed.

Lemma date_cuttable : cuttable re_date.
Proof.
  intros p s n Hm. rewrite match_date in Hm.
  destruct (tok_match date_head p s) eqn:Ht; [|discriminate].
  injection Hm as <-. unfold tok_match in Ht.
  apply andb_prop in Ht. destruct Ht as [Hp Hh].
  apply negb_true_iff in Hp.
  destruct s as [|c1 [|c2 [|c3 [|c4 [|c5 t]]]]]; try discriminate.
  cbn [date_head] in Hh.
  apply andb_prop in Hh. destruct Hh as [Hh Hok].
  apply andb_prop in Hh. destruct Hh as [Hh Hd5].
  apply andb_prop in Hh. destruct Hh as [Hh Hd4].
  apply andb_prop in Hh. destruct Hh as [Hh Hs3].
  apply andb_prop in Hh. destruct Hh as [Hd1 Hd2].
  cbn [skipn]. unfold date_year.
  destruct t as [|c6 t'].
  - exists [c1; c2; c3; c4; c5], []. repeat split; auto.
    + simpl. now apply digit_is_word.
    + simpl. now apply digit_is_word.
  - destruct ((47 =? c6)%N && _) eqn:Hy.
    + apply andb_prop in Hy. destruct Hy as [H6 Hy].
      apply andb_prop in Hy. destruct Hy as [Hy Hok'].
      apply andb_prop in Hy. destruct Hy as [H2 _]. apply Nat.leb_le in H2.
      pose proof (span_len_le isdecimal t') as Hle.
      pose proof (span_len_all isdecimal t') as Hall.
      exists (c1 :: c2 :: c3 :: c4 :: c5 :: c6 :: firstn (span_len isdecimal t') t'),
             (skipn (span_len isdecimal t') t').
      split; [simpl; now rewrite firstn_skipn|].
      split; [simpl; rewrite length_firstn; lia|].
      split; [exact Hp|].
      split; [simpl; now apply digit_is_word|].
      split; [|exact Hok'].
      rewrite !last_of_cons.
      assert (Hne : firstn (span_len isdecimal t') t' <> []).
      { intros E. apply (f_equal (@length cp)) in E.
        rewrite length_firstn in E. simpl in E. lia. }
      destruct (forallb_last isdecimal _ (Some c6) Hne Hall) as [c [-> Hc]].
      simpl. now apply digit_is_word.
    + exists [c1; c2; c3; c4; c5], (c6 :: t'). repeat split; auto.
      * simpl. now apply digit_is_word.
      * simpl. now apply digit_is_word.
Qed.

(** Removing the matches of a token is an edit that copies only where the
    token does not match. *)
Lemma sub_token_edit (r : regex) :
  cuttable r ->
  forall n s p q, (length s <= n)%nat ->
  edit (fun p s => match_at r p s = None) p q s (sub_from r [] p s 0).
Proof.
  intros Hcut. induction n as [|n IH]; intros s p q Hlen.
  - destruct s; [|simpl in Hlen; lia].
    destruct (match_at r p []) eqn:E.
    + destruct (Hcut _ _ _ E) as [m [rest [Es [_ [_ [Hh _]]]]]].
      destruct m; [discriminate|discriminate].
    + cbn [sub_from]. rewrite E. now apply edit_rstrip.
  - destruct (match_at r p s) as [k|] eqn:E.
    + destruct (Hcut _ _ _ E) as [m [rest [-> [Hk [Hp [Hh [Hl Hok]]]]]]].
      assert (Hm : m <> []) by (destruct m; [discriminate|discriminate]).
      subst k. rewrite (sub_from_match r [] p m rest Hm E). cbn [app].
      apply edit_cut; auto. apply IH.
      rewrite length_app in Hlen. destruct m; [congruence|]. simpl in Hlen. lia.
    + destruct s as [|c s].
      * cbn [sub_from]. rewrite E. now apply edit_rstrip.
      * rewrite (sub_from_nomatch r [] p c s E).
        apply edit_copy; [exact E|]. apply IH. simpl in Hlen. lia.
Qed.

(** Collapsing white space is an edit. *)
Lemma sub_spaces_edit :
  forall n s p q, (length s <= n)%nat ->
  edit (fun _ _ => True) p q s (sub_from re_spaces (u " ") p s 0).
Proof.
  induction n as [|n IH]; intros s p q Hlen.
  - destruct s; [|simpl in Hlen; lia].
    cbn [sub_from]. rewrite match_spaces. simpl. now apply edit_rstrip.
  - destruct (match_at re_spaces p s) as [k|] eqn:E.
    + rewrite match_spaces in E.
      destruct (1 <=? span_len isspace s)%nat eqn:H1; [|discriminate].
      injection E as <-. apply Nat.leb_le in H1.
      pose proof (span_len_le isspace s) as Hle.
      pose proof (span_len_all isspace s) as Hall.
      pose proof (firstn_skipn (span_len isspace s) s) as Es.
      set (m := firstn (span_len isspace s) s) in *.
      set (rest := skipn (span_len isspace s) s) in *.
      assert (Hlm : length m = span_len isspace s).
      { subst m. rewrite length_firstn. lia. }
      assert (Hm : m <> []).
      { intros E. rewrite E in Hlm. simpl in Hlm. lia. }
      assert (E : match_at re_spaces p (m ++ rest) = Some (length m)).
      { rewrite Es, match_spaces, Hlm.
        destruct (1 <=? span_len isspace s)%nat eqn:H1'; [reflexivity|].
        apply Nat.leb_gt in H1'. lia. }
      rewrite <- Es. rewrite (sub_from_match re_spaces (u " ") p m rest Hm E).
      change (u " " ++ ?x) with (32%N :: x).
      apply edit_spaces; auto. apply IH.
      assert (length s = length m + length rest)%nat
        by (rewrite <- Es, length_app; reflexivity).
      lia.
    + destruct s as [|c s].
      * cbn [sub_from]. rewrite E. now apply edit_rstrip.
      * rewrite (sub_from_nomatch re_spaces (u " ") p c s E).
        apply edit_copy; [exact I|]. apply IH. simpl in Hlen. lia.
Qed.

Lemma rstrip_nil (s : str) : rstrip s = [] -> forallb isspace s = true.
Proof.
  induction s as [|c s IH]; [reflexivity|]. cbn [rstrip forallb].
  destruct (rstrip s) eqn:E; [|discriminate].
  destruct (isspace c); [|discriminate]. intros _. now apply IH.
Qed.

Lemma rstrip_edit (s : str) : forall p q, edit (fun _ _ => True) p q s (rstrip s).
Proof.
  induction s as [|c s IH]; intros p q.
  - now apply edit_rstrip.
  - cbn [rstrip]. destruct (rstrip s) as [|x t] eqn:E.
    + pose proof (rstrip_nil s E) as Hs.
      destruct (isspace c) eqn:Hc.
      * apply edit_rstrip. simpl. now rewrite Hc.
      * apply edit_copy; [exact I|]. now apply edit_rstrip.
    + apply edit_copy; [exact I|]. apply IH.
Qed.

Lemma lstrip_split (s : str) :
  exists m, s = m ++ lstrip s /\ forallb isspace m = true.
Proof.
  induction s as [|c s [m [E Hm]]]; [exists []; auto|].
  cbn [lstrip]. destruct (isspace c) eqn:Hc.
  - exists (c :: m). split; [simpl; now f_equal|]. simpl. now rewrite Hc.
  - exists []. auto.
Qed.

Lemma tfree_lstrip (head : str -> bool) (s : str) :
  tfree head None s = true -> tfree head None (lstrip s) = true.
Proof.
  intros Hf. destruct (lstrip_split s) as [m [E Hm]].
  rewrite E in Hf. apply tfree_app in Hf.
  destruct m as [|c m]; [exact Hf|].
  rewrite (tfree_prev head None (last_of None (c :: m))); [exact Hf|].
  rewrite spaces_last_not_word; [reflexivity|discriminate|exact Hm].
Qed.

(** The first pass leaves no digit run and no date. *)
Lemma compat_refl (p : option cp) (s : str) : compat p p s.
Proof. now left. Qed.

Lemma tfree_sub_card (s : str) : tfree card_head None (sub re_card [] s) = true.
Proof.
  apply (tfree_card_edit _ None None s _
           (sub_token_edit re_card card_cuttable (length s) s None None (le_n _))
           (compat_refl _ _)).
  right. intros p' s' E. rewrite match_card in E.
  now destruct (tok_match card_head p' s').
Qed.

Lemma tfree_sub_date (s : str) : tfree date_head None (sub re_date [] s) = true.
Proof.
  apply (tfree_date_edit _ None None s _
           (sub_token_edit re_date date_cuttable (length s) s None None (le_n _))
           (compat_refl _ _)).
  right. intros p' s' E. rewrite match_date in E.
  now destruct (tok_match date_head p' s').
Qed.

Lemma tfree_card_sub_date (s : str) :
  tfree card_head None s = true ->
  tfree card_head None (sub re_date [] s) = true.
Proof.
  intros Hf.
  apply (tfree_card_edit _ None None s _
           (sub_token_edit re_date date_cuttable (length s) s None None (le_n _))
           (compat_refl _ _)).
  now left.
Qed.

Lemma tfree_sub_spaces (head : str -> bool) (s : str) :
  (forall s, head s = true -> exists c s', s = c :: s' /\ isdecimal c = true) ->
  (forall P c s o, edit P (Some c) (Some c) s o ->
                   head (c :: o) = true -> head (c :: s) = true) ->
  tfree head None s = true ->
  tfree head None (sub re_spaces (u " ") s) = true.
Proof.
  intros Hd He Hf.
  apply (edit_tfree head Hd He _ None None s _
           (sub_spaces_edit (length s) s None None (le_n _)) (compat_refl _ _)).
  now left.
Qed.

Lemma tfree_rstrip (head : str -> bool) (s : str) :
  (forall s, head s = true -> exists c s', s = c :: s' /\ isdecimal c = true) ->
  (forall P c s o, edit P (Some c) (Some c) s o ->
                   head (c :: o) = true -> head (c :: s) = true) ->
  tfree head None s = true ->
  tfree head None (rstrip s) = true.
Proof.
  intros Hd He Hf.
  apply (edit_tfree head Hd He _ None None s _ (rstrip_edit s None None)
           (compat_refl _ _)).
  now left.
Qed.

End SubEdits.
(** ** The gateway rules *)

Section GatewayFacts.
Context `{UnicodeDB}.
Import Re.

Lemma starts_with_split (l s : str) :
  starts_with l s = true -> s = l ++ skipn (length l) s.
Proof.
  revert s. induction l as [|c l IH]; intros s Hs; [reflexivity|].
  destruct s as [|x s]; [discriminate|]. simpl in Hs.
  apply andb_prop in Hs. destruct Hs as [Hc Hs]. apply N.eqb_eq in Hc. subst x.
  simpl. f_equal. now apply IH.
Qed.

(** An optional code point of a class. *)
Lemma rep_opt_one (p : cp -> bool) (prev : option cp) (t : str) (n : nat) (k : cont) :
  rep p 0 (Some 1%nat) prev t n k =
  match t with
  | c :: t' =>
      if p c then
        match k (Some c) t' (S n) with
        | Some r => Some r
        | None => k prev t n
        end
      else k prev t n
  | [] => k prev [] n
  end.
Proof.
  destruct t as [|c [|c' t'']]; simpl; try reflexivity.
  - destruct (p c); reflexivity.
  - destruct (p c); simpl; [|reflexivity]. now rewrite andb_false_r.
Qed.

(** A pattern that starts with [^] matches at the start of the subject only. *)
Lemma sub_from_bol (r : regex) (repl : str) : forall s c j,
  sub_from (Cat Bol r) repl (Some c) s j = skipn j s.
Proof.
  induction s as [|x s IH]; intros c j.
  - destruct j; reflexivity.
  - destruct j; cbn [sub_from skipn].
    + unfold match_at. cbn [run]. f_equal. apply IH.
    + apply IH.
Qed.

Lemma sub_bol (r : regex) (repl : str) (s : str) :
  sub (Cat Bol r) repl s =
  match match_at (Cat Bol r) None s with
  | Some n => repl ++ skipn n s
  | None => s
  end.
Proof.
  unfold sub. destruct s as [|c s].
  - cbn [sub_from]. destruct (match_at (Cat Bol r) None []) as [[|n]|]; reflexivity.
  - cbn [sub_from]. destruct (match_at (Cat Bol r) None (c :: s)) as [[|n]|];
      rewrite sub_from_bol; reflexivity.
Qed.

Lemma match_prefix (p : string) (s : str) :
  match_at (prefix p) None s =
  if starts_with (u p) s && star_at (skipn (length (u p)) s)
  then Some (length (u p) + 1)%nat else None.
Proof.
  unfold match_at, prefix, Lit. cbn [run]. rewrite run_Str.
  destruct (starts_with (u p) s); [|reflexivity]. cbn [andb].
  destruct (skipn (length (u p)) s) as [|c t]; [reflexivity|].
  cbn [star_at]. destruct (42 =? c)%N; [|reflexivity].
  f_equal. lia.
Qed.

Lemma match_prefix_sp (p : string) (s : str) :
  match_at (prefix_sp p) None s =
  if starts_with (u p) s then
    match skipn (length (u p)) s with
    | c :: t =>
        if isspace c && star_at t then Some (length (u p) + 2)%nat
        else if (42 =? c)%N then Some (length (u p) + 1)%nat else None
    | [] => None
    end
  else None.
Proof.
  unfold match_at, prefix_sp, Lit. cbn [run]. rewrite run_Str.
  destruct (starts_with (u p) s); [|reflexivity].
  rewrite rep_opt_one.
  destruct (skipn (length (u p)) s) as [|c t]; [reflexivity|].
  destruct (isspace c); cbn [andb].
  - destruct t as [|c' t']; cbn [star_at].
    + destruct (42 =? c)%N; [f_equal; lia|reflexivity].
    + destruct (42 =? c')%N; [f_equal; lia|].
      destruct (42 =? c)%N; [f_equal; lia|reflexivity].
  - destruct (42 =? c)%N; [f_equal; lia|reflexivity].
Qed.

Lemma last_of_snoc (q : option cp) (m : str) (c : cp) :
  last_of q (m ++ [c]) = Some c.
Proof. now rewrite last_of_app. Qed.

Lemma prefix_fires (p : string) (s : str) (n : nat) :
  match_at (prefix p) None s = Some n -> prefix_shape p n s.
Proof.
  rewrite match_prefix.
  destruct (starts_with (u p) s) eqn:Hs; [|discriminate]. cbn [andb].
  pose proof (starts_with_split (u p) s Hs) as Es.
  destruct (skipn (length (u p)) s) as [|c t]; [discriminate|].
  cbn [star_at]. destruct (42 =? c)%N eqn:Hc; [|discriminate].
  apply N.eqb_eq in Hc. subst c. intros [= <-].
  exists [42%N], t. split; [exact Es|]. split.
  - rewrite length_app. reflexivity.
  - apply last_of_snoc.
Qed.

Lemma prefix_sp_fires (p : string) (s : str) (n : nat) :
  match_at (prefix_sp p) None s = Some n -> prefix_shape p n s.
Proof.
  rewrite match_prefix_sp.
  destruct (starts_with (u p) s) eqn:Hs; [|discriminate].
  pose proof (starts_with_split (u p) s Hs) as Es.
  destruct (skipn (length (u p)) s) as [|c t]; [discriminate|].
  destruct (isspace c && star_at t) eqn:Hst.
  - apply andb_prop in Hst. destruct Hst as [_ Hst].
    destruct t as [|c' t']; [discriminate|]. cbn [star_at] in Hst.
    apply N.eqb_eq in Hst. subst c'. intros [= <-].
    exists [c; 42%N], t'. split; [exact Es|]. split.
    + rewrite length_app. reflexivity.
    + change [c; 42%N] with ([c] ++ [42%N]). rewrite app_assoc. apply last_of_snoc.
  - destruct (42 =? c)%N eqn:Hc; [|discriminate].
    apply N.eqb_eq in Hc. subst c. intros [= <-].
    exists [42%N], t. split; [exact Es|]. split.
    + rewrite length_app. reflexivity.
    + apply last_of_snoc.
Qed.

Lemma anchored_fires (rule : regex * str) (s : str) (n : nat) :
  (exists p, fst rule = prefix p \/ fst rule = prefix_sp p) ->
  match_at (fst rule) None s = Some n ->
  exists m rest, s = m ++ rest /\ length m = n /\ last_of None m = Some 42%N.
Proof.
  intros [p [E|E]] Hm; rewrite E in Hm.
  - destruct (prefix_fires p s n Hm) as [m [rest [Es [En Hl]]]].
    exists (u p ++ m), rest. rewrite <- app_assoc. auto.
  - destruct (prefix_sp_fires p s n Hm) as [m [rest [Es [En Hl]]]].
    exists (u p ++ m), rest. rewrite <- app_assoc. auto.
Qed.

Lemma apply_rule_bol (p : string) (repl s : str) (rule : regex * str) :
  rule = (prefix p, repl) \/ rule = (prefix_sp p, repl) ->
  apply_rule s rule =
  match match_at (fst rule) None s with
  | Some n => repl ++ skipn n s
  | None => s
  end.
Proof.
  intros [->| ->]; unfold apply_rule; cbn [fst snd];
    unfold prefix, prefix_sp; apply sub_bol.
Qed.

Lemma apply_rule_idle (rule : regex * str) (s : str) :
  In rule gateway_rules -> fires rule s = false -> apply_rule s rule = s.
Proof.
  intros Hin Hf. unfold fires in Hf.
  assert (E : apply_rule s rule =
              match match_at (fst rule) None s with
              | Some n => snd rule ++ skipn n s
              | None => s
              end).
  { unfold gateway_rules in Hin. simpl in Hin.
    repeat (destruct Hin as [<-|Hin];
            [eapply apply_rule_bol; (now left) || (now right)|]).
    contradiction. }
  rewrite E. now destruct (match_at (fst rule) None s).
Qed.

Lemma apply_rule_fires (rule : regex * str) (s : str) :
  In rule gateway_rules -> fires rule s = true ->
  exists m rest,
    s = m ++ rest /\ last_of None m = Some 42%N /\
    apply_rule s rule = snd rule ++ rest.
Proof.
  intros Hin Hf. unfold fires in Hf.
  destruct (match_at (fst rule) None s) as [n|] eqn:Hm; [|discriminate].
  assert (E : apply_rule s rule = snd rule ++ skipn n s
              /\ exists p, fst rule = prefix p \/ fst rule = prefix_sp p).
  { unfold gateway_rules in Hin. simpl in Hin.
    repeat (destruct Hin as [<-|Hin];
            [split;
             [erewrite apply_rule_bol by ((now left) || (now right));
              cbn [fst snd] in *; now rewrite Hm
             |eexists; cbn [fst]; (now left) || (now right)]|]).
    contradiction. }
  destruct E as [E Hp].
  destruct (anchored_fires rule s n Hp Hm) as [m [rest [Es [En Hl]]]].
  exists m, rest. split; [exact Es|]. split; [exact Hl|].
  rewrite E, Es, <- En, skipn_app, Nat.sub_diag, skipn_all. reflexivity.
Qed.

(** No rule matches a text that starts with "GATEWAY*". *)
Lemma gateway_text_idle (rule : regex * str) (rest : str) :
  In rule gateway_rules -> fires rule (u "GATEWAY*" ++ rest) = false.
Proof.
  intros Hin. unfold gateway_rules in Hin. simpl in Hin.
  repeat (destruct Hin as [<-|Hin]; [reflexivity|]). contradiction.
Qed.

Lemma rewrites_idle (rules : list (regex * str)) (rest : str) :
  incl rules gateway_rules ->
  rewrites rules (u "GATEWAY*" ++ rest) = repeat false (length rules)
  /\ fold_left apply_rule rules (u "GATEWAY*" ++ rest) = u "GATEWAY*" ++ rest.
Proof.
  induction rules as [|r rs IH]; intros Hincl; [split; reflexivity|].
  assert (Hr : In r gateway_rules) by (apply Hincl; now left).
  assert (Hrs : incl rs gateway_rules) by (intros x Hx; apply Hincl; now right).
  cbn [rewrites fold_left length repeat].
  rewrite (apply_rule_idle r _ Hr (gateway_text_idle r rest Hr)).
  rewrite (gateway_text_idle r rest Hr).
  destruct (IH Hrs) as [-> ->]. split; reflexivity.
Qed.

Lemma picpay_idle (s : str) :
  apply_rule s (prefix "PICPAY", u "PICPAY*") = s.
Proof.
  rewrite (apply_rule_bol "PICPAY" (u "PICPAY*") s) by now left.
  cbn [fst]. rewrite match_prefix.
  destruct (starts_with (u "PICPAY") s) eqn:Hs; [|reflexivity]. cbn [andb].
  pose proof (starts_with_split (u "PICPAY") s Hs) as Es.
  destruct (skipn (length (u "PICPAY")) s) as [|c t] eqn:Hk; [reflexivity|].
  cbn [star_at]. destruct (42 =? c)%N eqn:Hc; [|reflexivity].
  apply N.eqb_eq in Hc. subst c.
  rewrite Es at 1 2. rewrite skipn_app.
  change (skipn (length (u "PICPAY") + 1) (u "PICPAY")) with (@nil cp).
  change (length (u "PICPAY") + 1 - length (u "PICPAY"))%nat with 1%nat.
  reflexivity.
Qed.

Lemma rule_replacement (rule : regex * str) :
  In rule gateway_rules ->
  snd rule = u "GATEWAY*" \/ rule = (prefix "PICPAY", u "PICPAY*").
Proof.
  intros Hin. unfold gateway_rules in Hin. simpl in Hin.
  repeat (destruct Hin as [<-|Hin]; [(now left) || (now right)|]).
  contradiction.
Qed.

(** The rules leave the text as it is, or replace a piece at its start that
    ends with the star by "GATEWAY*". *)
Lemma fold_rules_cases (rules : list (regex * str)) :
  incl rules gateway_rules ->
  forall s,
  fold_left apply_rule rules s = s \/
  exists m rest,
    s = m ++ rest /\ last_of None m = Some 42%N /\
    fold_left apply_rule rules s = u "GATEWAY*" ++ rest.
Proof.
  induction rules as [|r rs IH]; intros Hincl s; [now left|].
  assert (Hr : In r gateway_rules) by (apply Hincl; now left).
  assert (Hrs : incl rs gateway_rules) by (intros x Hx; apply Hincl; now right).
  cbn [fold_left]. destruct (fires r s) eqn:Hf.
  - destruct (rule_replacement r Hr) as [Hg| ->].
    + destruct (apply_rule_fires r s Hr Hf) as [m [rest [Es [Hl Ea]]]].
      right. exists m, rest. split; [exact Es|]. split; [exact Hl|].
      rewrite Ea, Hg. now apply rewrites_idle.
    + rewrite picpay_idle. now apply IH.
  - rewrite (apply_rule_idle r s Hr Hf). now apply IH.
Qed.

Lemma gateway_cases (s : str) :
  gateway s = s \/
  exists m rest,
    s = m ++ rest /\ last_of None m = Some 42%N /\
    gateway s = u "GATEWAY*" ++ rest.
Proof. apply fold_rules_cases, incl_refl. Qed.

Lemma gateway_In (x : cp) (s : str) :
  In x (gateway s) -> In x s \/ In x (u "GATEWAY*").
Proof.
  destruct (gateway_cases s) as [-> |[m [rest [Es [_ ->]]]]]; [now left|].
  intros Hin. apply in_app_or in Hin. destruct Hin as [Hin|Hin]; [now right|].
  left. rewrite Es. apply in_or_app. now right.
Qed.

Lemma fires_prefix (p : string) (repl s : str) :
  fires (prefix p, repl) s = true -> starts_with (u p) s = true.
Proof.
  unfold fires. cbn [fst]. rewrite match_prefix.
  now destruct (starts_with (u p) s).
Qed.

Lemma fires_prefix_sp (p : string) (repl s : str) :
  fires (prefix_sp p, repl) s = true -> starts_with (u p) s = true.
Proof.
  unfold fires. cbn [fst]. rewrite match_prefix_sp.
  now destruct (starts_with (u p) s).
Qed.

Lemma starts_with_two (a b s : str) :
  starts_with a s = true -> starts_with b s = true ->
  starts_with a b = true \/ starts_with b a = true.
Proof.
  revert b s. induction a as [|x a IH]; intros b s Ha Hb; [now left|].
  destruct b as [|y b]; [now right|].
  destruct s as [|z s]; [discriminate|]. simpl in *.
  apply andb_prop in Ha. destruct Ha as [Hx Ha].
  apply andb_prop in Hb. destruct Hb as [Hy Hb].
  apply N.eqb_eq in Hx. apply N.eqb_eq in Hy. subst x y.
  rewrite N.eqb_refl. simpl. now apply (IH b s).
Qed.

Ltac rule_literal E :=
  first [apply fires_prefix in E | apply fires_prefix_sp in E].

Ltac rules_conflict :=
  match goal with
  | E1 : fires _ ?s = true, E2 : fires _ ?s = true |- _ =>
      rule_literal E1; rule_literal E2;
      destruct (starts_with_two _ _ _ E1 E2); discriminate
  end.

Lemma count_occ_repeat_false (n : nat) :
  count_occ Bool.bool_dec (repeat false n) true = 0%nat.
Proof. induction n; simpl; auto. Qed.

(** A rule that writes "GATEWAY*" before rules of which at most one
    matches. *)
Lemma rewrites_step (r : regex * str) (rs : list (regex * str)) (s : str) :
  In r gateway_rules ->
  incl rs gateway_rules ->
  snd r = u "GATEWAY*" ->
  (count_occ Bool.bool_dec (rewrites rs s) true <= 1)%nat ->
  (count_occ Bool.bool_dec (rewrites (r :: rs) s) true <= 1)%nat.
Proof.
  intros Hr Hrs Hg Hcount. cbn [rewrites]. destruct (fires r s) eqn:Hf.
  - destruct (apply_rule_fires r s Hr Hf) as [m [rest [_ [_ Ea]]]].
    rewrite Ea, Hg, (proj1 (rewrites_idle rs rest Hrs)).
    rewrite count_occ_cons_eq by reflexivity.
    now rewrite count_occ_repeat_false.
  - rewrite (apply_rule_idle r s Hr Hf).
    now rewrite count_occ_cons_neq by discriminate.
Qed.

Ltac in_rules :=
  unfold gateway_rules; repeat (first [left; reflexivity | right]).

Ltac incl_rules :=
  let x := fresh "x" in
  let Hx := fresh "Hx" in
  intros x Hx; unfold gateway_rules; repeat (first [exact Hx | apply in_cons]).

(** C6: the eight rules are applied in the order of the list; for every
    text at most one of the eight patterns matches it, and in the course of
    the rewriting at most one rule matches what it is given: the text that a
    rule wrote is matched by none of the rules after it. *)
Theorem gateway_rules_exclusive (s : str) :
  gateway s = fold_left apply_rule gateway_rules s /\
  (length (filter (fun rule => fires rule s) gateway_rules) <= 1)%nat /\
  (count_occ Bool.bool_dec (rewrites gateway_rules s) true <= 1)%nat.
Proof.
  split; [reflexivity|]. split.
  - unfold gateway_rules. cbn [filter].
    repeat match goal with
           | |- context [fires ?r s] =>
               destruct (fires r s) eqn:?; [try (exfalso; rules_conflict)|]
           end; simpl; lia.
  - unfold gateway_rules at 1.
    repeat (apply rewrites_step; [in_rules|incl_rules|reflexivity|]).
    cbn [rewrites]. destruct (fires _ s); simpl; lia.
Qed.

End GatewayFacts.
(** ** White space *)

Section SpaceFacts.
Context `{UnicodeDB}.
Import Re.

Lemma span_len_zero (p : cp -> bool) (s : str) :
  match hd_error s with Some c => p c | None => false end = false ->
  span_len p s = 0%nat.
Proof. destruct s as [|c s]; simpl; [reflexivity|]. now intros ->. Qed.

Lemma sub_spaces_fixed (s : str) : forall p,
  single_spaces s = true -> sub_from re_spaces (u " ") p s 0 = s.
Proof.
  induction s as [|c s IH]; intros p Hs.
  - cbn [sub_from]. now rewrite match_spaces.
  - cbn [single_spaces] in Hs. apply andb_prop in Hs. destruct Hs as [Hc Hs].
    destruct (isspace c) eqn:Ec.
    + apply andb_prop in Hc. destruct Hc as [E32 Hn].
      apply N.eqb_eq in E32. subst c. apply negb_true_iff in Hn.
      assert (Hm : match_at re_spaces p ([32%N] ++ s) = Some (length [32%N])).
      { rewrite match_spaces. cbn [app span_len]. rewrite Ec.
        now rewrite (span_len_zero isspace s Hn). }
      pose proof (sub_from_match re_spaces (u " ") p [32%N] s
                    ltac:(discriminate) Hm) as Hsub.
      cbn [app] in Hsub. etransitivity; [exact Hsub|].
      rewrite IH by exact Hs. reflexivity.
    + rewrite sub_from_nomatch.
      * f_equal. now apply IH.
      * rewrite match_spaces. cbn [span_len]. now rewrite Ec.
Qed.

Lemma sub_spaces_single : forall n s p, (length s <= n)%nat ->
  single_spaces (sub_from re_spaces (u " ") p s 0) = true /\
  (space_opt (hd_error s) = false ->
   hd_error (sub_from re_spaces (u " ") p s 0) = hd_error s).
Proof.
  induction n as [|n IH]; intros s p Hlen.
  - destruct s; [|simpl in Hlen; lia].
    cbn [sub_from]. rewrite match_spaces. simpl. auto.
  - destruct (match_at re_spaces p s) as [k|] eqn:E.
    + rewrite match_spaces in E.
      destruct (1 <=? span_len isspace s)%nat eqn:H1; [|discriminate].
      injection E as <-. apply Nat.leb_le in H1.
      assert (Hcontra : space_opt (hd_error s) = false -> False).
      { intros Hs. destruct s as [|c s']; [simpl in H1; lia|].
        cbn [span_len] in H1. simpl in Hs. rewrite Hs in H1. lia. }
      pose proof (span_len_le isspace s) as Hle.
      pose proof (span_len_next isspace s) as Hnext.
      pose proof (firstn_skipn (span_len isspace s) s) as Es.
      set (m := firstn (span_len isspace s) s) in *.
      set (rest := skipn (span_len isspace s) s) in *.
      assert (Hlm : length m = span_len isspace s).
      { subst m. rewrite length_firstn. lia. }
      assert (Hm : m <> []).
      { intros E. rewrite E in Hlm. simpl in Hlm. lia. }
      assert (E : match_at re_spaces p (m ++ rest) = Some (length m)).
      { rewrite Es, match_spaces, Hlm.
        destruct (1 <=? span_len isspace s)%nat eqn:H1'; [reflexivity|].
        apply Nat.leb_gt in H1'. lia. }
      assert (Hrest : (length rest <= n)%nat).
      { assert (length s = length m + length rest)%nat
          by (rewrite <- Es, length_app; reflexivity).
        lia. }
      assert (Hhd : space_opt (hd_error rest) = false).
      { destruct rest; [reflexivity|exact Hnext]. }
      destruct (IH rest (last_of p m) Hrest) as [IH1 IH2].
      rewrite <- Es at 1 2. rewrite (sub_from_match re_spaces (u " ") p m rest Hm E).
      change (u " " ++ ?x) with (32%N :: x). split.
      * cbn [single_spaces]. rewrite space_32, N.eqb_refl, IH1.
        rewrite (IH2 Hhd), Hhd. reflexivity.
      * intros Hs. exfalso. apply Hcontra. now rewrite <- Es.
    + destruct s as [|c s].
      * cbn [sub_from]. rewrite E. simpl. auto.
      * rewrite (sub_from_nomatch re_spaces (u " ") p c s E).
        destruct (IH s (Some c) ltac:(simpl in Hlen; lia)) as [IH1 IH2].
        split; [|reflexivity].
        cbn [single_spaces]. rewrite IH1.
        rewrite match_spaces in E. cbn [span_len] in E.
        destruct (isspace c); [discriminate|reflexivity].
Qed.

Lemma single_spaces_app (m rest : str) :
  single_spaces (m ++ rest) = true -> single_spaces rest = true.
Proof.
  induction m as [|c m IH]; intros Hs; [exact Hs|].
  cbn [app single_spaces] in Hs. apply andb_prop in Hs. now apply IH.
Qed.

Lemma single_spaces_lstrip (s : str) :
  single_spaces s = true -> single_spaces (lstrip s) = true.
Proof.
  intros Hs. destruct (lstrip_split s) as [m [E _]].
  rewrite E in Hs. now apply single_spaces_app in Hs.
Qed.

Lemma rstrip_hd (s : str) : rstrip s <> [] -> hd_error (rstrip s) = hd_error s.
Proof.
  destruct s as [|c s]; [reflexivity|]. cbn [rstrip].
  destruct (rstrip s); [|reflexivity].
  destruct (isspace c); [congruence|reflexivity].
Qed.

Lemma single_spaces_rstrip (s : str) :
  single_spaces s = true -> single_spaces (rstrip s) = true.
Proof.
  induction s as [|c s IH]; intros Hs; [reflexivity|].
  cbn [single_spaces] in Hs. apply andb_prop in Hs. destruct Hs as [Hc Hs].
  specialize (IH Hs). cbn [rstrip].
  destruct (rstrip s) as [|x t] eqn:E.
  - destruct (isspace c) eqn:Ec; [reflexivity|].
    cbn [single_spaces]. now rewrite Ec.
  - assert (Hh : hd_error s = Some x).
    { rewrite <- (rstrip_hd s) by (rewrite E; discriminate). now rewrite E. }
    rewrite Hh in Hc.
    change (single_spaces (c :: x :: t))
      with ((if isspace c then (c =? 32)%N && negb (space_opt (Some x)) else true)
            && single_spaces (x :: t)).
    now rewrite Hc, IH.
Qed.

(** Texts that [strip] leaves as they are. *)
Lemma lstrip_fixed (s : str) : space_opt (hd_error s) = false -> lstrip s = s.
Proof. destruct s as [|c s]; simpl; [reflexivity|]. now intros ->. Qed.

Lemma lstrip_hd (s : str) : space_opt (hd_error (lstrip s)) = false.
Proof.
  induction s as [|c s IH]; [reflexivity|]. cbn [lstrip].
  destruct (isspace c) eqn:Ec; [exact IH|]. simpl. exact Ec.
Qed.

Lemma last_of_nonempty (p q : option cp) (s : str) :
  s <> [] -> last_of p s = last_of q s.
Proof.
  destruct s as [|c s]; [congruence|]. intros _. now rewrite !last_of_cons.
Qed.

Lemma rstrip_fixed (s : str) : space_opt (last_of None s) = false -> rstrip s = s.
Proof.
  induction s as [|c s IH]; intros Hl; [reflexivity|].
  rewrite last_of_cons in Hl. cbn [rstrip].
  destruct s as [|c' s'].
  - simpl in *. now rewrite Hl.
  - rewrite (last_of_nonempty (Some c) None) in Hl by discriminate.
    now rewrite (IH Hl).
Qed.

Lemma rstrip_last (s : str) : space_opt (last_of None (rstrip s)) = false.
Proof.
  induction s as [|c s IH]; [reflexivity|]. cbn [rstrip].
  destruct (rstrip s) as [|x t] eqn:E.
  - destruct (isspace c) eqn:Ec; [reflexivity|]. simpl. exact Ec.
  - rewrite last_of_cons. now rewrite (last_of_nonempty (Some c) None) by discriminate.
Qed.

Lemma rstrip_keeps_hd (s : str) :
  space_opt (hd_error s) = false -> space_opt (hd_error (rstrip s)) = false.
Proof.
  intros Hs. destruct (rstrip s) eqn:E; [reflexivity|].
  rewrite <- E, rstrip_hd; [exact Hs|congruence].
Qed.

Lemma strip_hd (s : str) : space_opt (hd_error (strip s)) = false.
Proof. apply rstrip_keeps_hd, lstrip_hd. Qed.

Lemma strip_last (s : str) : space_opt (last_of None (strip s)) = false.
Proof. apply rstrip_last. Qed.

Lemma strip_fixed (s : str) :
  space_opt (hd_error s) = false -> space_opt (last_of None s) = false ->
  strip s = s.
Proof.
  intros Hh Hl. unfold strip. rewrite (lstrip_fixed s Hh). now apply rstrip_fixed.
Qed.

Lemma lstrip_In (x : cp) (s : str) : In x (lstrip s) -> In x s.
Proof.
  destruct (lstrip_split s) as [m [E _]]. intros Hin.
  rewrite E. apply in_or_app. now right.
Qed.

Lemma rstrip_In (x : cp) (s : str) : In x (rstrip s) -> In x s.
Proof.
  revert x. induction s as [|c s IH]; intros x; [auto|]. cbn [rstrip].
  destruct (rstrip s) as [|y t].
  - destruct (isspace c); [contradiction|]. intros [->|[]]. now left.
  - intros [->|Hin]; [now left|]. right. now apply IH.
Qed.

Lemma strip_In (x : cp) (s : str) : In x (strip s) -> In x s.
Proof. intros Hin. now apply lstrip_In, rstrip_In. Qed.

End SpaceFacts.
(** ** The result of a normalisation *)

Section NormalForm.
Context `{UnicodeDB}.
Import Re.

Lemma normalize_steps (text : str) :
  normalize_description (Some text) = rewrite_steps (nfd (strip (py_upper text))).
Proof.
  destruct text as [|c text]; [|reflexivity].
  unfold rewrite_steps. cbn [normalize_description].
  rewrite (py_upper_ascii []) by reflexivity. cbn [map strip lstrip rstrip].
  rewrite (nfd_ascii []) by reflexivity. reflexivity.
Qed.

Lemma sub_marks_filter (s : str) : forall p,
  sub_from re_marks [] p s 0 = filter (fun c => negb (is_combining_mark c)) s.
Proof.
  induction s as [|c s IH]; intros p; [reflexivity|].
  cbn [sub_from filter]. rewrite match_marks.
  destruct (is_combining_mark c); cbn [negb app]; [apply IH|].
  f_equal. apply IH.
Qed.

Lemma sub_marks_fixed (s : str) :
  forallb (fun c => negb (is_combining_mark c)) s = true ->
  sub re_marks [] s = s.
Proof.
  intros Hs. unfold sub. rewrite sub_marks_filter.
  induction s as [|c s IH]; [reflexivity|]. simpl in *.
  apply andb_prop in Hs. destruct Hs as [-> Hs]. f_equal. now apply IH.
Qed.

Lemma literal_facts (c : cp) :
  literal c ->
  is_ascii c = true /\ ascii_isdecimal c = false /\ is_combining_mark c = false
  /\ ascii_upper c = c.
Proof.
  unfold literal. simpl.
  intros Hin. repeat (destruct Hin as [<-|Hin]; [repeat split|]). contradiction.
Qed.

(** Where the code points of the result come from. *)
Lemma rewrite_steps_In (x : str) (c : cp) :
  In c (rewrite_steps x) ->
  (In c x /\ is_combining_mark c = false) \/ literal c.
Proof.
  unfold rewrite_steps. intros Hin.
  apply strip_In in Hin.
  apply sub_In in Hin. destruct Hin as [Hin|Hin];
    [|right; unfold literal; simpl in *; tauto].
  apply gateway_In in Hin. destruct Hin as [Hin|Hin];
    [|right; unfold literal; simpl in *; tauto].
  apply sub_In in Hin. destruct Hin as [Hin|[]].
  apply sub_In in Hin. destruct Hin as [Hin|[]].
  left. unfold sub in Hin. rewrite sub_marks_filter in Hin.
  apply filter_In in Hin. destruct Hin as [Hin Hm].
  split; [exact Hin|]. now apply negb_true_iff.
Qed.

Section TokenFree.
Variable head : str -> bool.
Hypothesis head_digit :
  forall s, head s = true -> exists c s', s = c :: s' /\ isdecimal c = true.
Hypothesis head_edit :
  forall P c s o, edit P (Some c) (Some c) s o ->
                  head (c :: o) = true -> head (c :: s) = true.

Lemma tfree_literal (lit : str) : forall p rest,
  forallb (fun c => negb (isdecimal c)) lit = true ->
  tfree head (last_of p lit) rest = true ->
  tfree head p (lit ++ rest) = true.
Proof.
  induction lit as [|c lit IH]; intros p rest Hl Hr; [exact Hr|].
  simpl in Hl. apply andb_prop in Hl. destruct Hl as [Hc Hl].
  apply negb_true_iff in Hc. rewrite last_of_cons in Hr.
  cbn [app tfree]. rewrite (IH (Some c) rest Hl Hr), andb_true_r.
  apply negb_true_iff. unfold tok_match.
  destruct (head (c :: lit ++ rest)) eqn:E; [|apply andb_false_r].
  destruct (head_digit _ E) as [c' [s' [[= <- <-] Hd]]]. congruence.
Qed.

Lemma gateway_literal_nondigit :
  forallb (fun c => negb (isdecimal c)) (u "GATEWAY*") = true.
Proof.
  apply forallb_forall. intros c Hin.
  assert (Hl : literal c) by (unfold literal; simpl in *; tauto).
  destruct (literal_facts c Hl) as [Ha [Hd _]].
  now rewrite isdecimal_ascii, Hd.
Qed.

Lemma tfree_gateway (s : str) :
  tfree head None s = true -> tfree head None (gateway s) = true.
Proof.
  intros Hf. destruct (gateway_cases s) as [-> |[m [rest [Es [Hl ->]]]]]; [exact Hf|].
  apply tfree_literal; [exact gateway_literal_nondigit|].
  rewrite Es in Hf. apply tfree_app in Hf. now rewrite Hl in Hf.
Qed.

Lemma tfree_tail (x : str) :
  tfree head None x = true ->
  tfree head None (strip (sub re_spaces (u " ") (gateway x))) = true.
Proof.
  intros Hf. unfold strip.
  apply tfree_rstrip; [exact head_digit|exact head_edit|].
  apply tfree_lstrip.
  apply tfree_sub_spaces; [exact head_digit|exact head_edit|].
  now apply tfree_gateway.
Qed.

End TokenFree.

Lemma rewrite_steps_card_free (x : str) :
  tfree card_head None (rewrite_steps x) = true.
Proof.
  unfold rewrite_steps.
  apply (tfree_tail card_head card_head_digit (@card_head_edit _)).
  apply tfree_card_sub_date, tfree_sub_card.
Qed.

Lemma rewrite_steps_date_free (x : str) :
  tfree date_head None (rewrite_steps x) = true.
Proof.
  unfold rewrite_steps.
  apply (tfree_tail date_head date_head_digit (@date_head_edit _)).
  apply tfree_sub_date.
Qed.

Lemma rewrite_steps_single_spaces (x : str) :
  single_spaces (rewrite_steps x) = true.
Proof.
  unfold rewrite_steps, strip.
  apply single_spaces_rstrip, single_spaces_lstrip.
  apply (sub_spaces_single (length _) _ None (le_n _)).
Qed.

Lemma span_len_app (p : cp -> bool) (run post : str) :
  forallb p run = true ->
  span_len p (run ++ post) = (length run + span_len p post)%nat.
Proof.
  induction run as [|c run IH]; intros Hr; [reflexivity|].
  simpl in *. apply andb_prop in Hr. destruct Hr as [-> Hr]. now rewrite IH.
Qed.

Lemma tfree_no_standalone_digits (s : str) :
  tfree card_head None s = true -> ~ standalone_digits s.
Proof.
  intros Hf [pre [run [post [Es [H4 [Hd [Hp Hok]]]]]]].
  rewrite Es in Hf. apply tfree_app in Hf.
  assert (Hm : tok_match card_head (last_of None pre) (run ++ post) = true).
  { unfold tok_match. rewrite Hp. cbn [negb andb]. unfold card_head.
    assert (Hz : span_len isdecimal post = 0%nat).
    { apply span_len_zero. unfold after_ok in Hok. apply negb_true_iff in Hok.
      destruct post as [|c post]; [reflexivity|]. simpl in *.
      now apply not_word_not_digit. }
    rewrite (span_len_app isdecimal run post Hd), Hz, Nat.add_0_r.
    rewrite skipn_app, Nat.sub_diag, skipn_all. cbn [app skipn]. rewrite Hok.
    rewrite andb_true_r. now apply Nat.leb_le. }
  destruct (run ++ post); cbn [tfree] in Hf; rewrite Hm in Hf; discriminate.
Qed.

Lemma is_combining_mark_block (c : cp) : is_combining_mark c = diacritical_mark c.
Proof. reflexivity. Qed.

(** C8: the result of a normalisation holds no mark of the block Combining
    Diacritical Marks (U+0300 to U+036F) and no code point whose canonical
    decomposition holds one, and no run of four or more digits between word
    boundaries. *)
Theorem normalize_no_accent_no_digit_run (text : option str) :
  let out := normalize_description text in
  (forall c, In c out ->
     diacritical_mark c = false /\
     forall d, In d (nfd [c]) -> diacritical_mark d = false) /\
  ~ standalone_digits out.
Proof.
  intros out. subst out. destruct text as [text|].
  - rewrite normalize_steps. split.
    + intros c Hin. apply rewrite_steps_In in Hin.
      assert (Hc : diacritical_mark c = false /\ nfd [c] = [c]).
      { destruct Hin as [[Hin Hm]|Hl].
        - rewrite is_combining_mark_block in Hm.
          split; [exact Hm|exact (nfd_decomposed _ c Hin)].
        - destruct (literal_facts c Hl) as [Ha [_ [Hm _]]].
          rewrite is_combining_mark_block in Hm. split; [exact Hm|].
          apply nfd_ascii. simpl. now rewrite Ha. }
      destruct Hc as [Hm Hn]. split; [exact Hm|].
      rewrite Hn. intros d [<-|[]]. exact Hm.
    + apply tfree_no_standalone_digits, rewrite_steps_card_free.
  - split; [intros c []|].
    apply tfree_no_standalone_digits. reflexivity.
Qed.

(** A letter followed by a mark that is outside the block, in a text that
    upper-casing and decomposition leave as it is, is left as it is. *)
Lemma normalize_keeps_other_mark (c : cp) :
  py_upper [65%N; c] = [65%N; c] ->
  nfd [65%N; c] = [65%N; c] ->
  isspace c = false -> isdecimal c = false -> diacritical_mark c = false ->
  normalize_description (Some [65%N; c]) = [65%N; c].
Proof.
  intros Hu Hn Hs Hd Hm.
  assert (H65s : isspace 65%N = false) by now rewrite isspace_ascii.
  assert (H65d : isdecimal 65%N = false) by now rewrite isdecimal_ascii.
  assert (Hstrip : strip [65%N; c] = [65%N; c]).
  { unfold strip. cbn [lstrip]. rewrite H65s. cbn [rstrip]. now rewrite Hs. }
  assert (Hfree : forall head, (forall s, head s = true ->
                     exists x s', s = x :: s' /\ isdecimal x = true) ->
                   tfree head None [65%N; c] = true).
  { intros head Hh.
    assert (Hno : forall p s, (match s with
                               | x :: _ => isdecimal x = false
                               | [] => True
                               end) -> tok_match head p s = false).
    { intros p s Hx. unfold tok_match. destruct (head s) eqn:E; [|apply andb_false_r].
      destruct (Hh s E) as [x [s' [-> Hdx]]]. congruence. }
    cbn [tfree]. rewrite !Hno by (exact H65d || exact Hd || exact I). reflexivity. }
  rewrite normalize_steps, Hu, Hstrip, Hn. unfold rewrite_steps.
  rewrite sub_marks_fixed
    by (cbn [forallb]; change (is_combining_mark c) with (diacritical_mark c);
        rewrite Hm; reflexivity).
  unfold sub at 3. rewrite (sub_from_free re_card [] [65%N; c] None)
    by (rewrite free_card; apply Hfree, card_head_digit).
  unfold sub at 2. rewrite (sub_from_free re_date [] [65%N; c] None)
    by (rewrite free_date; apply Hfree, date_head_digit).
  assert (Hidle : forall r, In r gateway_rules ->
                    apply_rule [65%N; c] r = [65%N; c]).
  { intros r Hr. apply apply_rule_idle; [exact Hr|].
    unfold gateway_rules in Hr. simpl in Hr.
    repeat (destruct Hr as [<-|Hr]; [reflexivity|]). contradiction. }
  assert (Hg : gateway [65%N; c] = [65%N; c]).
  { unfold gateway, gateway_rules. cbn [fold_left].
    rewrite !Hidle by (unfold gateway_rules; repeat (first [left; reflexivity|right])).
    reflexivity. }
  rewrite Hg. unfold sub.
  rewrite sub_spaces_fixed by (cbn [single_spaces]; rewrite H65s, Hs; reflexivity).
  exact Hstrip.
Qed.

End NormalForm.
(** ** Normalising a normalised description *)

Section SecondPass.
Context `{UnicodeDB}.
Import Re.

Lemma single_spaces_literal (lit rest : str) :
  forallb (fun c => negb (isspace c)) lit = true ->
  single_spaces rest = true -> single_spaces (lit ++ rest) = true.
Proof.
  induction lit as [|c lit IH]; intros Hl Hr; [exact Hr|].
  simpl in Hl. apply andb_prop in Hl. destruct Hl as [Hc Hl].
  apply negb_true_iff in Hc. cbn [app single_spaces]. rewrite Hc.
  now apply IH.
Qed.

Lemma gateway_literal_nonspace :
  forallb (fun c => negb (isspace c)) (u "GATEWAY*") = true.
Proof.
  apply forallb_forall. intros c Hin. simpl in Hin.
  repeat (destruct Hin as [<-|Hin]; [now rewrite isspace_ascii|]).
  contradiction.
Qed.

Lemma gateway_single_spaces (s : str) :
  single_spaces s = true -> single_spaces (gateway s) = true.
Proof.
  intros Hs. destruct (gateway_cases s) as [-> |[m [rest [Es [_ ->]]]]]; [exact Hs|].
  apply single_spaces_literal; [exact gateway_literal_nonspace|].
  rewrite Es in Hs. now apply single_spaces_app in Hs.
Qed.

Lemma gateway_hd (s : str) :
  space_opt (hd_error s) = false -> space_opt (hd_error (gateway s)) = false.
Proof.
  intros Hs. destruct (gateway_cases s) as [-> |[m [rest [_ [_ ->]]]]]; [exact Hs|].
  simpl. now rewrite isspace_ascii.
Qed.

Lemma gateway_last (s : str) :
  space_opt (last_of None s) = false ->
  space_opt (last_of None (gateway s)) = false.
Proof.
  intros Hs. destruct (gateway_cases s) as [-> |[m [rest [Es [Hl ->]]]]]; [exact Hs|].
  rewrite Es, last_of_app, Hl in Hs. now rewrite last_of_app.
Qed.

(** On a text in normal form, only the gateway rules can act. *)
Lemma rewrite_steps_fixed (out : str) :
  forallb (fun c => negb (is_combining_mark c)) out = true ->
  tfree card_head None out = true ->
  tfree date_head None out = true ->
  single_spaces out = true ->
  space_opt (hd_error out) = false ->
  space_opt (last_of None out) = false ->
  rewrite_steps out = gateway out.
Proof.
  intros Hm Hc Hd Hs Hh Hl. unfold rewrite_steps.
  rewrite (sub_marks_fixed out Hm).
  unfold sub at 3. rewrite (sub_from_free re_card [] out None)
    by now rewrite free_card.
  unfold sub at 2. rewrite (sub_from_free re_date [] out None)
    by now rewrite free_date.
  unfold sub. rewrite sub_spaces_fixed by now apply gateway_single_spaces.
  apply strip_fixed; [now apply gateway_hd|now apply gateway_last].
Qed.

Lemma rewrite_steps_no_mark (x : str) :
  forallb (fun c => negb (is_combining_mark c)) (rewrite_steps x) = true.
Proof.
  apply forallb_forall. intros c Hin. apply rewrite_steps_In in Hin.
  destruct Hin as [[_ Hm]|Hl]; [now rewrite Hm|].
  destruct (literal_facts c Hl) as [_ [_ [Hm _]]]. now rewrite Hm.
Qed.

(** The second normalisation of a text that upper-casing and decomposition
    leave as it is applies the gateway rules to it, and nothing else. *)
Lemma normalize_twice (text : option str) :
  let out := normalize_description text in
  py_upper out = out -> nfd out = out ->
  normalize_description (Some out) = gateway out.
Proof.
  destruct text as [text|]; [|intros out _ _; reflexivity].
  intros out Hu Hn. rewrite normalize_steps, Hu.
  subst out. rewrite normalize_steps in *.
  set (x := nfd (strip (py_upper text))) in *.
  rewrite (strip_fixed (rewrite_steps x)) by apply strip_hd || apply strip_last.
  rewrite Hn. apply rewrite_steps_fixed.
  - apply rewrite_steps_no_mark.
  - apply rewrite_steps_card_free.
  - apply rewrite_steps_date_free.
  - apply rewrite_steps_single_spaces.
  - apply strip_hd.
  - apply strip_last.
Qed.

(** C3: normalising twice gives the result of normalising once whenever
    that result is left as it is by upper-casing, by canonical
    decomposition and by the gateway rules. *)
Theorem normalize_idempotent_when_stable (text : option str) :
  let out := normalize_description text in
  py_upper out = out -> nfd out = out -> gateway out = out ->
  normalize_description (Some out) = out.
Proof.
  intros out Hu Hn Hg. rewrite <- Hg at 2. now apply normalize_twice.
Qed.

(** *** ASCII descriptions *)

Lemma ascii_upper_fixed (c : cp) : ascii_upper (ascii_upper c) = ascii_upper c.
Proof.
  unfold ascii_upper.
  destruct ((97 <=? c) && (c <=? 122))%N eqn:E; [|now rewrite E].
  apply andb_prop in E. destruct E as [E1 E2].
  apply N.leb_le in E1. apply N.leb_le in E2.
  destruct (N.leb_spec 97 (c - 32)); [lia|reflexivity].
Qed.

Lemma ascii_upper_is_ascii (c : cp) :
  is_ascii c = true -> is_ascii (ascii_upper c) = true.
Proof.
  unfold is_ascii, ascii_upper. intros Hc. apply N.ltb_lt in Hc.
  destruct ((97 <=? c) && (c <=? 122))%N; apply N.ltb_lt; lia.
Qed.

(** The result for an ASCII description is upper-case ASCII text. *)
Lemma normalize_ascii_chars (s : str) (c : cp) :
  forallb is_ascii s = true ->
  In c (normalize_description (Some s)) ->
  is_ascii c = true /\ ascii_upper c = c.
Proof.
  intros Hs Hin. rewrite normalize_steps in Hin.
  apply rewrite_steps_In in Hin. destruct Hin as [[Hin _]|Hl].
  - rewrite (py_upper_ascii s Hs) in Hin.
    assert (Ha : forallb is_ascii (strip (map ascii_upper s)) = true).
    { apply forallb_forall. intros x Hx. apply strip_In in Hx.
      apply in_map_iff in Hx. destruct Hx as [y [<- Hy]].
      apply ascii_upper_is_ascii. now apply (proj1 (forallb_forall _ _) Hs). }
    rewrite (nfd_ascii _ Ha) in Hin.
    split; [now apply (proj1 (forallb_forall _ _) Ha)|].
    apply strip_In in Hin. apply in_map_iff in Hin.
    destruct Hin as [y [<- _]]. apply ascii_upper_fixed.
  - destruct (literal_facts c Hl) as [Ha [_ [_ Hu]]]. auto.
Qed.

Lemma normalize_ascii_stable (s : str) :
  forallb is_ascii s = true ->
  let out := normalize_description (Some s) in
  py_upper out = out /\ nfd out = out.
Proof.
  intros Hs out.
  assert (Ha : forallb is_ascii out = true).
  { apply forallb_forall. intros c Hc. now apply (normalize_ascii_chars s c Hs). }
  split; [|now apply nfd_ascii].
  rewrite (py_upper_ascii out Ha).
  assert (Hu : forall c, In c out -> ascii_upper c = c).
  { intros c Hc. now apply (normalize_ascii_chars s c Hs). }
  clear Ha. induction out as [|c out IH]; [reflexivity|].
  simpl. rewrite (Hu c) by now left. f_equal. apply IH.
  intros x Hx. apply Hu. now right.
Qed.

(** For an ASCII description the second normalisation is the gateway
    rewriting of the first: normalisation is idempotent on it exactly when
    the gateway rules leave its normalised form as it is. *)
Lemma normalize_twice_ascii (s : str) :
  forallb is_ascii s = true ->
  normalize_description (Some (normalize_description (Some s)))
  = gateway (normalize_description (Some s)).
Proof.
  intros Hs. destruct (normalize_ascii_stable s Hs) as [Hu Hn].
  now apply (normalize_twice (Some s)).
Qed.

End SecondPass.
(** ** ASCII descriptions under any Unicode database

    On ASCII text every database agrees with [BasicLatin], so that the
    normalisation of an ASCII description can be computed. *)

Section Transfer.
Context `{U : UnicodeDB}.
Import Re.

Lemma word_opt_ascii (o : option cp) :
  ascii_opt o = true -> @word_opt U o = @word_opt BasicLatin o.
Proof.
  destruct o as [c|]; [|reflexivity]. simpl. intros Ha.
  unfold is_word. now rewrite isalnum_ascii.
Qed.

Lemma at_boundary_ascii (prev : option cp) (s : str) :
  ascii_opt prev = true -> forallb is_ascii s = true ->
  @at_boundary U prev s = @at_boundary BasicLatin prev s.
Proof.
  intros Hp Hs. unfold at_boundary.
  rewrite (word_opt_ascii prev Hp). f_equal.
  apply word_opt_ascii. destruct s as [|c s]; [reflexivity|].
  simpl in *. now apply andb_prop in Hs.
Qed.

Lemma rep_ascii (p1 p2 : cp -> bool) :
  (forall c, is_ascii c = true -> p1 c = p2 c) ->
  forall s lo hi prev n k1 k2,
  same_cont k1 k2 -> ascii_opt prev = true -> forallb is_ascii s = true ->
  rep p1 lo hi prev s n k1 = rep p2 lo hi prev s n k2.
Proof.
  intros Hp. induction s as [|c s IH]; intros lo hi prev n k1 k2 Hk Hprev Hs.
  - simpl. now rewrite (Hk prev [] n).
  - simpl in Hs. apply andb_prop in Hs. destruct Hs as [Hc Hs].
    cbn [rep]. rewrite (Hp c Hc).
    rewrite (Hk prev (c :: s) n) by (auto; simpl; now rewrite Hc, Hs).
    now rewrite (IH (pred lo) (option_map pred hi) (Some c) (S n) k1 k2).
Qed.

Lemma run_ascii (r1 r2 : regex) :
  same_on_ascii r1 r2 ->
  forall prev s n k1 k2,
  same_cont k1 k2 -> ascii_opt prev = true -> forallb is_ascii s = true ->
  @run U r1 prev s n k1 = @run BasicLatin r2 prev s n k2.
Proof.
  induction 1 as [| | |p1 p2 Hp|a1 a2 b1 b2 Ha IHa Hb IHb|a1 a2 Ha IHa
                  |p1 p2 lo hi Hp];
    intros prev s n k1 k2 Hk Hprev Hs; cbn [run].
  - now apply Hk.
  - destruct prev; [reflexivity|now apply Hk].
  - rewrite (at_boundary_ascii prev s Hprev Hs).
    destruct (at_boundary prev s); [now apply Hk|reflexivity].
  - destruct s as [|c s]; [reflexivity|].
    simpl in Hs. apply andb_prop in Hs. destruct Hs as [Hc Hs].
    rewrite (Hp c Hc). destruct (p2 c); [now apply Hk|reflexivity].
  - apply IHa; auto. intros p' s' n' Hp' Hs'. now apply IHb.
  - rewrite (IHa prev s n k1 k2 Hk Hprev Hs).
    now rewrite (Hk prev s n Hprev Hs).
  - now apply rep_ascii.
Qed.

Lemma match_at_ascii (r1 r2 : regex) (prev : option cp) (s : str) :
  same_on_ascii r1 r2 -> ascii_opt prev = true -> forallb is_ascii s = true ->
  @match_at U r1 prev s = @match_at BasicLatin r2 prev s.
Proof.
  intros Hr Hp Hs. unfold match_at. apply run_ascii; auto.
  intros p s' n _ _. reflexivity.
Qed.

Lemma sub_from_ascii (r1 r2 : regex) (repl : str) :
  same_on_ascii r1 r2 ->
  forall s prev j, ascii_opt prev = true -> forallb is_ascii s = true ->
  @sub_from U r1 repl prev s j = @sub_from BasicLatin r2 repl prev s j.
Proof.
  intros Hr. induction s as [|c s IH]; intros prev j Hp Hs.
  - destruct j; [|reflexivity]. cbn [sub_from].
    now rewrite (match_at_ascii r1 r2 prev [] Hr Hp Hs).
  - pose proof Hs as Hs'. simpl in Hs'. apply andb_prop in Hs'.
    destruct Hs' as [Hc Hs'].
    destruct j; cbn [sub_from].
    + rewrite (match_at_ascii r1 r2 prev (c :: s) Hr Hp Hs).
      destruct (match_at r2 prev (c :: s)) as [[|n]|];
        now rewrite IH by auto.
    + now apply IH.
Qed.

Lemma sub_ascii (r1 r2 : regex) (repl s : str) :
  same_on_ascii r1 r2 -> forallb is_ascii s = true ->
  @sub U r1 repl s = @sub BasicLatin r2 repl s.
Proof. intros Hr Hs. now apply sub_from_ascii. Qed.

Lemma sub_is_ascii (r : regex) (repl s : str) :
  forallb is_ascii repl = true -> forallb is_ascii s = true ->
  forallb is_ascii (@sub BasicLatin r repl s) = true.
Proof.
  intros Hr Hs. apply forallb_forall. intros c Hc.
  apply (@sub_In BasicLatin) in Hc.
  destruct Hc as [Hc|Hc];
    [exact (proj1 (forallb_forall _ _) Hs c Hc)
    |exact (proj1 (forallb_forall _ _) Hr c Hc)].
Qed.

Lemma lstrip_ascii (s : str) :
  forallb is_ascii s = true -> @lstrip U s = @lstrip BasicLatin s.
Proof.
  induction s as [|c s IH]; intros Hs; [reflexivity|].
  simpl in Hs. apply andb_prop in Hs. destruct Hs as [Hc Hs].
  cbn [lstrip]. rewrite (isspace_ascii c Hc). cbn [isspace BasicLatin].
  now rewrite IH.
Qed.

Lemma rstrip_ascii (s : str) :
  forallb is_ascii s = true -> @rstrip U s = @rstrip BasicLatin s.
Proof.
  induction s as [|c s IH]; intros Hs; [reflexivity|].
  simpl in Hs. apply andb_prop in Hs. destruct Hs as [Hc Hs].
  cbn [rstrip]. rewrite (isspace_ascii c Hc). cbn [isspace BasicLatin].
  now rewrite IH.
Qed.

Lemma strip_is_ascii (s : str) :
  forallb is_ascii s = true -> forallb is_ascii (@strip BasicLatin s) = true.
Proof.
  intros Hs. apply forallb_forall. intros c Hc.
  apply (@strip_In BasicLatin) in Hc.
  exact (proj1 (forallb_forall _ _) Hs c Hc).
Qed.

Lemma strip_ascii (s : str) :
  forallb is_ascii s = true -> @strip U s = @strip BasicLatin s.
Proof.
  intros Hs. unfold strip. rewrite (lstrip_ascii s Hs).
  apply rstrip_ascii. apply forallb_forall. intros c Hc.
  apply (@lstrip_In BasicLatin) in Hc.
  exact (proj1 (forallb_forall _ _) Hs c Hc).
Qed.

Lemma same_Str (l : str) : same_on_ascii (Str l) (Str l).
Proof.
  induction l as [|c l IH]; [apply same_eps|].
  cbn [Str]. apply same_cat; [|exact IH]. now apply same_chr.
Qed.

Lemma same_prefix (p : string) : same_on_ascii (prefix p) (prefix p).
Proof.
  unfold prefix, Lit. apply same_cat; [apply same_bol|].
  apply same_cat; [apply same_Str|]. now apply same_chr.
Qed.

Lemma same_prefix_sp (p : string) :
  same_on_ascii (@prefix_sp U p) (@prefix_sp BasicLatin p).
Proof.
  unfold prefix_sp, Lit. apply same_cat; [apply same_bol|].
  apply same_cat; [apply same_Str|].
  apply same_cat; [|now apply same_chr].
  apply same_rep. intros c Hc. now apply isspace_ascii.
Qed.

Lemma apply_rule_ascii (r1 r2 : regex) (repl s : str) :
  same_on_ascii r1 r2 -> forallb is_ascii s = true ->
  @apply_rule U s (r1, repl) = @apply_rule BasicLatin s (r2, repl).
Proof. intros Hr Hs. unfold apply_rule. now apply sub_ascii. Qed.

Lemma apply_rule_is_ascii (rule : regex * str) (s : str) :
  forallb is_ascii (snd rule) = true -> forallb is_ascii s = true ->
  forallb is_ascii (@apply_rule BasicLatin s rule) = true.
Proof. intros Hr Hs. unfold apply_rule. now apply sub_is_ascii. Qed.

Lemma gateway_ascii (s : str) :
  forallb is_ascii s = true ->
  @gateway U s = @gateway BasicLatin s /\
  forallb is_ascii (@gateway BasicLatin s) = true.
Proof.
  intros Hs. unfold gateway, gateway_rules. cbn [fold_left].
  repeat match goal with
         | |- context [@apply_rule U ?x (?r, ?repl)] =>
             rewrite (apply_rule_ascii r _ repl x
                        ltac:(first [apply same_prefix | apply same_prefix_sp]));
             [|repeat (apply apply_rule_is_ascii; [reflexivity|]); exact Hs]
         end.
  split; [reflexivity|].
  repeat (apply apply_rule_is_ascii; [reflexivity|]). exact Hs.
Qed.

Lemma same_re_card : same_on_ascii (@re_card U) (@re_card BasicLatin).
Proof.
  unfold re_card. apply same_cat; [apply same_wordb|].
  apply same_cat; [|apply same_wordb].
  apply same_rep. intros c Hc. now apply isdecimal_ascii.
Qed.

Lemma same_re_date : same_on_ascii (@re_date U) (@re_date BasicLatin).
Proof.
  unfold re_date, Lit.
  repeat (first [apply same_cat | apply same_opt | apply same_wordb
                | apply same_rep | apply same_chr]);
    intros c Hc; reflexivity || now apply isdecimal_ascii.
Qed.

Lemma same_re_spaces : same_on_ascii (@re_spaces U) (@re_spaces BasicLatin).
Proof.
  unfold re_spaces. apply same_rep. intros c Hc. now apply isspace_ascii.
Qed.

Lemma same_re_marks : same_on_ascii re_marks re_marks.
Proof. unfold re_marks. now apply same_chr. Qed.

(** The normalisation of an ASCII description does not depend on the
    database. *)
Theorem normalize_ascii (s : str) :
  forallb is_ascii s = true ->
  @normalize_description U (Some s) = @normalize_description BasicLatin (Some s).
Proof.
  intros Hs.
  rewrite (@normalize_steps U), (@normalize_steps BasicLatin).
  unfold rewrite_steps.
  change (@py_upper BasicLatin s) with (map ascii_upper s).
  change (@nfd BasicLatin (@strip BasicLatin (map ascii_upper s)))
    with (@strip BasicLatin (map ascii_upper s)).
  rewrite (py_upper_ascii s Hs).
  assert (H0 : forallb is_ascii (map ascii_upper s) = true).
  { apply forallb_forall. intros c Hc. apply in_map_iff in Hc.
    destruct Hc as [y [<- Hy]]. apply ascii_upper_is_ascii.
    now apply (proj1 (forallb_forall _ _) Hs). }
  rewrite (strip_ascii _ H0).
  pose proof (strip_is_ascii _ H0) as H1.
  rewrite (nfd_ascii _ H1).
  rewrite (sub_ascii re_marks re_marks [] _ same_re_marks H1).
  pose proof (sub_is_ascii re_marks [] _ eq_refl H1) as H2.
  rewrite (sub_ascii _ _ [] _ same_re_card H2).
  pose proof (sub_is_ascii (@re_card BasicLatin) [] _ eq_refl H2) as H3.
  rewrite (sub_ascii _ _ [] _ same_re_date H3).
  pose proof (sub_is_ascii (@re_date BasicLatin) [] _ eq_refl H3) as H4.
  destruct (gateway_ascii _ H4) as [Eg H5]. rewrite Eg.
  rewrite (sub_ascii _ _ (u " ") _ same_re_spaces H5).
  pose proof (sub_is_ascii (@re_spaces BasicLatin) (u " ") _ eq_refl H5) as H6.
  now rewrite (strip_ascii _ H6).
Qed.

End Transfer.
(** ** Bank encoding *)

Lemma starts_with_app (a post : str) : starts_with a (a ++ post) = true.
Proof.
  induction a as [|x a IH]; [reflexivity|]. simpl. now rewrite N.eqb_refl.
Qed.

Lemma contains_unfold (a b : str) :
  contains a b =
  starts_with a b || match b with [] => false | _ :: b' => contains a b' end.
Proof. destruct b; reflexivity. Qed.

(** [a in b] holds exactly when [a] is a substring of [b]. *)
Lemma contains_occurs (a b : str) : contains a b = true <-> occurs a b.
Proof.
  split.
  - induction b as [|y b IH]; rewrite contains_unfold; intros Hc.
    + rewrite orb_false_r in Hc. apply starts_with_split in Hc.
      now exists [], (skipn (length a) []).
    + apply orb_prop in Hc. destruct Hc as [Hs|Hc].
      * apply starts_with_split in Hs. now exists [], (skipn (length a) (y :: b)).
      * destruct (IH Hc) as [pre [post E]]. exists (y :: pre), post.
        simpl. now rewrite E.
  - intros [pre [post ->]]. induction pre as [|x pre IH]; rewrite contains_unfold.
    + cbn [app]. now rewrite starts_with_app.
    + cbn [app]. rewrite IH. apply orb_true_r.
Qed.

Lemma not_contains_occurs (a b : str) : contains a b = false <-> ~ occurs a b.
Proof.
  rewrite <- contains_occurs. destruct (contains a b); split; congruence.
Qed.

Lemma first_match_some (text : str) (names : list str) (i : nat) :
  first_match text names = Some i <->
  (exists b, nth_error names i = Some b /\ contains b text = true) /\
  (forall j b, (j < i)%nat -> nth_error names j = Some b -> contains b text = false).
Proof.
  revert i. induction names as [|b rest IH]; intros i; simpl.
  - split; [discriminate|]. intros [[b [E _]] _]. destruct i; discriminate.
  - destruct (contains b text) eqn:Eb.
    + split.
      * intros [= <-]. split; [exists b; auto|]. intros j b' Hj. lia.
      * intros [[b' [E Hc]] Hmin]. destruct i as [|i]; [reflexivity|].
        specialize (Hmin 0%nat b (Nat.lt_0_succ i) eq_refl). congruence.
    + destruct (first_match text rest) as [k|] eqn:Ek; simpl.
      * split.
        -- intros [= <-]. destruct (proj1 (IH k) eq_refl) as [Hx Hmin].
           split; [exact Hx|]. intros [|j] b' Hj E; simpl in E.
           ++ congruence.
           ++ apply (Hmin j); [lia|exact E].
        -- intros [[b' [E Hc]] Hmin]. destruct i as [|i]; simpl in E.
           ++ congruence.
           ++ f_equal. symmetry.
              assert (Hi : Some k = Some i); [|congruence].
              apply IH. split; [exists b'; auto|].
              intros j b'' Hj E'. apply (Hmin (S j)); [lia|exact E'].
      * split; [discriminate|].
        intros [[b' [E Hc]] Hmin]. destruct i as [|i]; simpl in E.
        -- congruence.
        -- assert (Hi : None = Some i); [|discriminate].
           apply IH. split; [exists b'; auto|].
           intros j b'' Hj E'. apply (Hmin (S j)); [lia|exact E'].
Qed.

Lemma first_match_none (text : str) (names : list str) :
  first_match text names = None <->
  (forall b, In b names -> contains b text = false).
Proof.
  induction names as [|b rest IH]; simpl.
  - split; auto. intros _ b [].
  - destruct (contains b text) eqn:Eb.
    + split; [discriminate|]. intros Hall. rewrite (Hall b) in Eb; auto. discriminate.
    + destruct (first_match text rest); simpl.
      * split; [discriminate|]. intros Hall.
        assert (Hn : Some n = None); [|discriminate].
        apply IH. intros b' Hb'. apply Hall. now right.
      * split; auto. intros _ b' [<-|Hb']; auto. now apply IH.
Qed.

Lemma first_match_bound (text : str) (names : list str) (i : nat) :
  first_match text names = Some i -> (i < length names)%nat.
Proof.
  intros E. apply first_match_some in E. destruct E as [[b [E _]] _].
  apply nth_error_Some. congruence.
Qed.

Section BankEncodingFacts.
Context `{UnicodeDB}.

Lemma encode_loop_spec (text : str) (names : list str) (i : nat) (vec : list float) :
  encode_loop text names i vec =
  match first_match text (map py_upper names) with
  | Some j => set_item vec (i + j) 1%float
  | None => vec
  end.
Proof.
  revert i. induction names as [|b rest IH]; intros i; simpl; auto.
  destruct (contains (py_upper b) text).
  - now rewrite Nat.add_0_r.
  - rewrite IH. destruct (first_match text (map py_upper rest)); simpl; auto.
    now rewrite Nat.add_succ_r.
Qed.

Lemma encode_loop_length (text : str) (names : list str) :
  length (encode_loop text names 0 (repeat 0%float (length names))) = length names.
Proof.
  rewrite encode_loop_spec.
  destruct (first_match _ _); [rewrite set_item_length|]; apply repeat_length.
Qed.

Lemma encode_banco_length (banco : value) (names : list str) (vec : list float) :
  encode_banco banco names = Some vec -> length vec = length names.
Proof.
  unfold encode_banco. destruct (banco_norm banco); [|discriminate].
  intros [= <-]. apply encode_loop_length.
Qed.

(** The known bank names are upper-case ASCII text. *)
Lemma upper_BANCOS_CONHECIDOS : map py_upper BANCOS_CONHECIDOS = BANCOS_CONHECIDOS.
Proof.
  unfold BANCOS_CONHECIDOS. simpl map.
  rewrite !py_upper_ascii by reflexivity. reflexivity.
Qed.

(** The text that is searched for a string: the upper-cased string, or the
    upper-cased placeholder, decomposed and without the marks of the
    block. *)
Lemma banco_norm_str (banco : str) :
  banco_norm (PyStr banco) =
  Some (filter (fun c => negb (diacritical_mark c))
          (nfd (py_upper (match banco with
                          | [] => u "desconhecido"
                          | _ :: _ => banco
                          end)))).
Proof.
  unfold banco_norm.
  destruct banco as [|x banco]; cbn [banco_or_default upper_of];
    unfold Re.sub; now rewrite sub_marks_filter.
Qed.

Lemma encode_banco_known (banco : value) (text : str) :
  banco_norm banco = Some text ->
  encode_banco banco BANCOS_CONHECIDOS =
  Some match first_match text BANCOS_CONHECIDOS with
       | Some j => set_item (repeat 0%float 11) j 1%float
       | None => repeat 0%float 11
       end.
Proof.
  intros E. unfold encode_banco. rewrite E, encode_loop_spec, upper_BANCOS_CONHECIDOS.
  reflexivity.
Qed.

(** C5: for a bank string, the text that is searched is the upper-cased
    string (the upper-cased placeholder for the empty string), canonically
    decomposed and without the marks U+0300 to U+036F.  The encoding is the
    indicator of the first known bank name, in the order of the list, that
    is a substring of that text (that entry is 1, hence not zero, and every
    other entry is zero), and the zero vector when no name is a substring
    of it; in both cases at most one entry is not zero. *)
Theorem encode_banco_first_match (banco : str) :
  let text :=
    filter (fun c => negb (diacritical_mark c))
      (nfd (py_upper (match banco with
                      | [] => u "desconhecido"
                      | _ :: _ => banco
                      end))) in
  exists vec,
    encode_banco (PyStr banco) BANCOS_CONHECIDOS = Some vec /\
    length vec = length BANCOS_CONHECIDOS /\
    (forall i b,
        nth_error BANCOS_CONHECIDOS i = Some b ->
        occurs b text ->
        (forall j b', (j < i)%nat -> nth_error BANCOS_CONHECIDOS j = Some b' ->
                      ~ occurs b' text) ->
        nth i vec 0%float = 1%float /\
        nth i vec 0%float <> 0%float /\
        forall j, j <> i -> nth j vec 0%float = 0%float) /\
    ((forall b, In b BANCOS_CONHECIDOS -> ~ occurs b text) ->
     vec = repeat 0%float (length BANCOS_CONHECIDOS)) /\
    (forall j k, nth j vec 0%float <> 0%float -> nth k vec 0%float <> 0%float -> j = k).
Proof.
  intros text. eexists. split.
  { apply encode_banco_known. apply banco_norm_str. }
  fold text. split; [|split; [|split]].
  - destruct (first_match _ _); [rewrite set_item_length|]; reflexivity.
  - intros i b E Hc Hmin.
    assert (Hf : first_match text BANCOS_CONHECIDOS = Some i).
    { apply first_match_some. split.
      - exists b. split; [exact E|]. now apply contains_occurs.
      - intros j b' Hj E'. apply not_contains_occurs. now apply (Hmin j). }
    rewrite Hf.
    assert (Hone : nth i (set_item (repeat 0%float 11) i 1%float) 0%float = 1%float).
    { apply set_item_nth_same. rewrite repeat_length.
      apply first_match_bound in Hf. exact Hf. }
    split; [exact Hone|]. split.
    + rewrite Hone. exact float_one_not_zero.
    + intros j Hj. rewrite set_item_nth_other by auto. apply nth_zeros.
  - intros Hall.
    assert (Hf : first_match text BANCOS_CONHECIDOS = None).
    { apply first_match_none. intros b Hb. apply not_contains_occurs. now apply Hall. }
    now rewrite Hf.
  - intros j k Hj Hk.
    destruct (first_match _ _) as [i|].
    + destruct (Nat.eq_dec i j) as [->|Hij].
      * destruct (Nat.eq_dec j k) as [->|Hjk]; auto.
        rewrite set_item_nth_other in Hk by auto. now rewrite nth_zeros in Hk.
      * rewrite set_item_nth_other in Hj by auto. now rewrite nth_zeros in Hj.
    + now rewrite nth_zeros in Hj.
Qed.

Lemma banco_norm_default :
  banco_norm PyNone = Some (u "DESCONHECIDO") /\
  banco_norm (PyStr []) = Some (u "DESCONHECIDO") /\
  banco_norm (PyOther false) = Some (u "DESCONHECIDO").
Proof.
  unfold banco_norm. cbn [banco_or_default upper_of].
  rewrite py_upper_ascii by reflexivity.
  rewrite nfd_ascii by reflexivity.
  repeat split; reflexivity.
Qed.

(** C10: for a bank that is [None] or the empty string the text that is
    searched is the placeholder "desconhecido", upper-cased; no known bank
    name is a substring of it, and the encoding is the zero vector.  For a
    record without the key, for which the data frame holds NaN, the
    function raises: NaN is true, so it takes the place of the placeholder,
    and it has no method [upper]. *)
Theorem encode_banco_missing :
  banco_or_default PyNone = PyStr (u "desconhecido") /\
  banco_or_default (PyStr []) = PyStr (u "desconhecido") /\
  banco_norm PyNone = Some (u "DESCONHECIDO") /\
  banco_norm (PyStr []) = Some (u "DESCONHECIDO") /\
  (forall b, In b BANCOS_CONHECIDOS -> ~ occurs b (u "DESCONHECIDO")) /\
  encode_banco PyNone BANCOS_CONHECIDOS = Some (repeat 0%float 11) /\
  encode_banco (PyStr []) BANCOS_CONHECIDOS = Some (repeat 0%float 11) /\
  banco_or_default py_nan = py_nan /\
  encode_banco py_nan BANCOS_CONHECIDOS = None.
Proof.
  destruct banco_norm_default as [E1 [E2 _]].
  split; [reflexivity|]. split; [reflexivity|].
  split; [exact E1|]. split; [exact E2|]. split.
  - intros b Hb. apply not_contains_occurs. revert b Hb.
    apply first_match_none. reflexivity.
  - rewrite (encode_banco_known _ _ E1), (encode_banco_known _ _ E2).
    repeat split; reflexivity.
Qed.

End BankEncodingFacts.

(** C5 on a concrete bank: "Nubank" is upper-cased to "NUBANK", the first
    name of the list, and the first entry of its encoding is 1. *)
Lemma encode_banco_first_match_witness :
  exists vec,
    encode_banco (H := BasicLatin) (PyStr (u "Nubank")) BANCOS_CONHECIDOS = Some vec /\
    nth 0 vec 0%float = 1%float /\
    nth 0 vec 0%float <> 0%float /\
    forall j, j <> 0%nat -> nth j vec 0%float = 0%float.
Proof.
  destruct (@encode_banco_first_match BasicLatin (u "Nubank"))
    as [vec [E [_ [Hfirst _]]]].
  exists vec. split; [exact E|].
  apply (Hfirst 0%nat (u "NUBANK")).
  - reflexivity.
  - exists [], []. reflexivity.
  - intros j b' Hj. inversion Hj.
Defined.

(** C10, as stated: on the NaN of a record without the key the function
    fails. *)
Lemma encode_banco_absent_raises :
  encode_banco (H := BasicLatin) py_nan BANCOS_CONHECIDOS = None.
Proof. reflexivity. Qed.
(** ** The pipeline *)

Section PipelineFacts.
Context `{UnicodeDB}.
Variable log1p : float -> float.
Variable tfidf_terms : list str -> list str.
Variable tfidf_idf : list str -> list float.
Variable tfidf_weight : list str -> str -> str -> float.
Variable model : Type.
Variable classification_report : Type.
Variable report_macro_f1 : classification_report -> float.
Variable train_test_split : matrix -> list str -> list float -> split.
Variable train_model :
  matrix -> list str -> list float -> matrix -> list str -> string ->
  fitted model classification_report.

(** C4: with fewer than 50 records the run reports the error and ends with
    exit status 1; nothing else happened before: no data set was prepared
    and no file was written. *)
Theorem main_too_few_records (dados : list Dado.t) :
  (length dados < 50)%nat ->
  main log1p tfidf_terms tfidf_idf tfidf_weight report_macro_f1
       train_test_split train_model dados
  = (Exit 1, [ErroPoucosDados (length dados)]).
Proof.
  intros Hlen. unfold main, MIN_TOTAL_SAMPLES.
  destruct (Nat.ltb_spec (length dados) 50); [reflexivity|lia].
Qed.

(** C9: a record whose type is neither "PJ" nor "PF" (or is missing) is kept
    whenever its description and category are kept, and its row has the
    type "PJ". *)
Theorem prepare_dataset_defaults_tipo (dados : list Dado.t) (i : nat) (t : Dado.t) :
  nth_error dados i = Some t ->
  is_tipo (Dado.tipo t) = false ->
  normalize_description (Dado.descricao t) <> [] ->
  has_categoria (Dado.categoria t) = true ->
  exists r, In r (prepare_dataset log1p dados) /\
            index r = i /\ dado r = t /\ tipo r = u "PJ".
Proof.
  intros Hnth Htipo Hdesc Hcat.
  exists (prepare_row log1p (i, t, normalize_description (Dado.descricao t))).
  split; [|split; [reflexivity|split; [reflexivity|]]].
  - unfold prepare_dataset. apply in_map.
    apply filter_In. split; [|exact Hcat].
    apply filter_In. split.
    + apply (in_map (fun x => (x, normalize_description (Dado.descricao (snd x))))
               (enumerate 0 dados) (i, t)).
      apply (enumerate_In dados 0 i t Hnth).
    + simpl. destruct (normalize_description (Dado.descricao t)); [congruence|reflexivity].
  - unfold prepare_row. cbn [tipo].
    destruct (Dado.tipo t) as [x|]; [|reflexivity].
    now rewrite Htipo.
Qed.

Lemma hstack2_shape (A B : matrix) :
  nrows A = nrows B ->
  exists X, hstack2 A B = Some X /\ nrows X = nrows A /\
            ncols X = (ncols A + ncols B)%nat.
Proof.
  intros E. unfold hstack2. rewrite E, Nat.eqb_refl. eexists. split; [reflexivity|].
  simpl. auto.
Qed.

Lemma hstack2_some (A B : matrix) :
  nrows A = nrows B ->
  hstack2 A B = Some {| nrows := nrows A; ncols := ncols A + ncols B;
                        cells := zip_rows (cells A) (cells B) |}.
Proof. intros E. unfold hstack2. now rewrite E, Nat.eqb_refl. Qed.

Lemma zip_rows_Forall2 {A : Type} (P Q : A -> list float -> Prop)
    (l : list A) (a b : list (list float)) :
  Forall2 P l a -> Forall2 Q l b ->
  Forall2 (fun r row => exists x y, P r x /\ Q r y /\ row = x ++ y) l (zip_rows a b).
Proof.
  intros Ha. revert b. induction Ha as [|r x l a Hx Ha IH]; intros b Hb.
  - inversion Hb. constructor.
  - inversion Hb as [|? y ? b' Hy Hb']; subst. cbn [zip_rows].
    constructor; [now exists x, y|]. now apply IH.
Qed.

Lemma Forall2_Forall_r {A B : Type} (P : A -> B -> Prop) (Q : B -> Prop)
    (l : list A) (m : list B) :
  Forall2 P l m -> (forall a b, P a b -> Q b) -> Forall Q m.
Proof. intros HP HQ. induction HP; constructor; eauto. Qed.

Lemma Forall2_map_eq {A B : Type} (f : A -> B) (l : list A) :
  Forall2 (fun r x => x = f r) l (map f l).
Proof. induction l; constructor; auto. Qed.

Lemma encode_banco_some (banco : value) (names : list str) :
  banco <> py_nan -> exists vec, encode_banco banco names = Some vec.
Proof.
  intros Hb. unfold encode_banco, banco_norm.
  destruct banco as [|[|x s]|[|]]; cbn [banco_or_default upper_of];
    try (eexists; reflexivity).
  now destruct Hb.
Qed.

Lemma all_results_Forall2 {A B : Type} (f : A -> option B) (l : list A) :
  (forall r, In r l -> exists v, f r = Some v) ->
  exists vs, all_results (map f l) = Some vs /\
             Forall2 (fun r v => f r = Some v) l vs.
Proof.
  induction l as [|r l IH]; intros Hf.
  - exists []. split; [reflexivity|constructor].
  - destruct (Hf r (or_introl eq_refl)) as [v Ev].
    destruct IH as [vs [E Hvs]]; [intros r' Hr'; apply Hf; now right|].
    exists (v :: vs). cbn [map all_results]. rewrite Ev, E.
    split; [reflexivity|]. now constructor.
Qed.

(** C7: for a data frame with at least one row, of which no bank is the NaN
    of a missing key, the three blocks stack.  Each row of the feature
    matrix is the row of TF-IDF weights of the description, followed by the
    encoding of the bank, followed by the amount feature, and it has as
    many cells as the matrix has columns: the number of terms of the fitted
    vocabulary, plus the number of known banks, plus one. *)
Theorem features_columns (df : list row) :
  df <> [] ->
  Forall (fun r => Dado.banco (dado r) <> py_nan) df ->
  exists X_full,
    features tfidf_terms tfidf_weight df = Some X_full /\
    nrows X_full = length df /\
    length (cells X_full) = length df /\
    ncols X_full =
      (length (tfidf_terms (map descricao_norm df))
       + length BANCOS_CONHECIDOS + 1)%nat /\
    Forall (fun cells_of_row => length cells_of_row = ncols X_full)
      (cells X_full) /\
    Forall2
      (fun r cells_of_row =>
         exists bank,
           encode_banco (Dado.banco (dado r)) BANCOS_CONHECIDOS = Some bank /\
           cells_of_row =
             map (tfidf_weight (map descricao_norm df) (descricao_norm r))
               (tfidf_terms (map descricao_norm df))
             ++ bank ++ [log_valor r])
      df (cells X_full).
Proof.
  intros Hdf Hbank. unfold features.
  set (corpus := map descricao_norm df).
  set (vocab := tfidf_terms corpus).
  set (enc := fun r => encode_banco (Dado.banco (dado r)) BANCOS_CONHECIDOS).
  destruct (all_results_Forall2 enc df) as [banks [Eb Hb]].
  { intros r Hr. apply encode_banco_some.
    exact (proj1 (Forall_forall _ _) Hbank r Hr). }
  rewrite Eb. cbn [hstack fold_left].
  pose proof (Forall2_length Hb) as Hlen.
  assert (Hrow0 : Forall (fun b => length b = length BANCOS_CONHECIDOS) banks).
  { clear -Hb. induction Hb as [|r b l bs Hr _ IH]; constructor; [|exact IH].
    exact (encode_banco_length _ _ _ Hr). }
  assert (HB : nrows (csr_of_rows banks) = length df /\
               ncols (csr_of_rows banks) = length BANCOS_CONHECIDOS /\
               cells (csr_of_rows banks) = banks).
  { destruct banks as [|b banks].
    - destruct df; [congruence|discriminate].
    - cbn [csr_of_rows nrows ncols cells]. inversion Hrow0; subst. auto. }
  destruct HB as [HB1 [HB2 HB3]].
  set (T := {| nrows := length corpus; ncols := length vocab;
               cells := map (fun doc => map (tfidf_weight corpus doc) vocab) corpus |}).
  assert (HT : nrows T = length df) by (subst T corpus; simpl; apply length_map).
  rewrite (hstack2_some T (csr_of_rows banks)) by now rewrite HT, HB1.
  rewrite hstack2_some
    by (cbn [nrows csr_of_column]; now rewrite HT, length_map).
  eexists. split; [reflexivity|].
  cbn [nrows ncols cells csr_of_column]. rewrite HB2, HB3. subst T. cbn [cells ncols nrows].
  assert (Hcells :
    Forall2
      (fun r cells_of_row =>
         exists bank, enc r = Some bank /\
           cells_of_row = map (tfidf_weight corpus (descricao_norm r)) vocab
                          ++ bank ++ [log_valor r])
      df
      (zip_rows
         (zip_rows (map (fun doc => map (tfidf_weight corpus doc) vocab) corpus) banks)
         (map (fun v => [v]) (map log_valor df)))).
  { subst corpus. rewrite !map_map. fold (map descricao_norm df).
    eapply Forall2_impl;
      [|apply zip_rows_Forall2;
        [apply zip_rows_Forall2; [apply Forall2_map_eq|exact Hb]
        |apply Forall2_map_eq]].
    intros r row [x [y [[x1 [x2 [-> [Hx2 ->]]]] [-> ->]]]].
    exists x2. split; [exact Hx2|]. now rewrite <- app_assoc. }
  split; [exact HT|]. split; [|split; [reflexivity|split; [|exact Hcells]]].
  - symmetry. exact (Forall2_length Hcells).
  - apply (Forall2_Forall_r _ _ _ _ Hcells). intros r row [bank [Hr ->]].
    rewrite !length_app, length_map, (encode_banco_length _ _ _ Hr).
    cbn [length]. lia.
Qed.

End PipelineFacts.

Section SampleRuns.
Variable log1p : float -> float.
Variable tfidf_terms : list str -> list str.
Variable tfidf_idf : list str -> list float.
Variable tfidf_weight : list str -> str -> str -> float.
Variable model : Type.
Variable classification_report : Type.
Variable report_macro_f1 : classification_report -> float.
Variable train_test_split : matrix -> list str -> list float -> split.
Variable train_model :
  matrix -> list str -> list float -> matrix -> list str -> string ->
  fitted model classification_report.

(** C2: on 60 records of which the 50 of type PJ share one category, no PJ
    model is trained or exported, and yet the label maps and the report list
    that category for PJ. *)
Theorem main_single_category_labels :
  let run := main (H := BasicLatin) log1p tfidf_terms tfidf_idf tfidf_weight
               report_macro_f1 train_test_split train_model
               Sample.one_pj_category in
  fst run = Exit 0 /\
  written_models (snd run) = ["categorizer_tipo.onnx"; "categorizer_pf.onnx"]%string /\
  option_map lm_pj (written_label_maps (snd run)) = Some [u "Fornecedores"] /\
  option_map (fun r => classes (rep_pj r)) (written_report (snd run))
    = Some [u "Fornecedores"] /\
  option_map exported_files (written_report (snd run))
    = Some ["categorizer_tipo.onnx"; "categorizer_pf.onnx"]%string.
Proof.
  vm_compute. repeat split.
Qed.

End SampleRuns.

Lemma main_too_few_records_witness :
  main (H := BasicLatin) Sample.log1p Sample.tfidf_terms Sample.tfidf_idf
       Sample.tfidf_weight Sample.report_macro_f1 Sample.train_test_split
       Sample.train_model (repeat (Sample.dado "PAG*LOJA" "Fornecedores" "PJ") 49)
  = (Exit 1, [ErroPoucosDados 49]).
Proof.
  apply (@main_too_few_records BasicLatin). simpl. lia.
Defined.

Lemma prepare_dataset_defaults_tipo_witness :
  exists r,
    In r (prepare_dataset (H := BasicLatin) Sample.log1p
            [Sample.dado "PAG*LOJA" "Fornecedores" "PJ";
             Sample.dado "UBER TRIP" "Transporte" "outro"]) /\
    index r = 1%nat /\
    dado r = Sample.dado "UBER TRIP" "Transporte" "outro" /\
    tipo r = u "PJ".
Proof.
  apply (@prepare_dataset_defaults_tipo BasicLatin).
  - reflexivity.
  - reflexivity.
  - vm_compute. discriminate.
  - reflexivity.
Defined.

Lemma features_columns_witness :
  exists X_full,
    features (H := BasicLatin) Sample.tfidf_terms Sample.tfidf_weight
      (prepare_dataset (H := BasicLatin) Sample.log1p Sample.one_pj_category)
      = Some X_full /\
    nrows X_full = 60%nat /\
    length (cells X_full) = 60%nat /\
    ncols X_full = (3 + 11 + 1)%nat /\
    Forall (fun cells_of_row => length cells_of_row = ncols X_full)
      (cells X_full).
Proof.
  destruct (@features_columns BasicLatin Sample.tfidf_terms Sample.tfidf_weight
              (prepare_dataset (H := BasicLatin) Sample.log1p Sample.one_pj_category))
    as [X [E [Hn [Hc [Hcols [Hrows _]]]]]].
  - vm_compute. discriminate.
  - vm_compute. repeat constructor; discriminate.
  - exists X. repeat split; assumption.
Defined.

(** ** Normalisation on concrete descriptions *)

(** C1, as stated: the description of scenario C does not normalise to
    "GATEWAY*LOJA". *)
Lemma normalize_scenario_c_not_LOJA :
  normalize_description (H := BasicLatin) (Some (u "PAG*LOJA123 12/05 4567890123"))
  <> u "GATEWAY*LOJA".
Proof. vm_compute. discriminate. Qed.

(** C1: under every Unicode database the description of scenario C
    normalises to "GATEWAY*LOJA123": the prefix is rewritten, the date and
    the separate digit run are removed, and the digits attached to "LOJA"
    stay. *)
Theorem normalize_scenario_c `{UnicodeDB} :
  normalize_description (Some (u "PAG*LOJA123 12/05 4567890123"))
  = u "GATEWAY*LOJA123".
Proof. rewrite normalize_ascii by reflexivity. vm_compute. reflexivity. Qed.

(** C3, as stated: normalising the result of a normalisation can change it.
    The digit run in front is removed, the space it leaves keeps the prefix
    rule from matching, and the final trim brings the prefix to the start. *)
Lemma normalize_not_idempotent :
  normalize_description (H := BasicLatin)
    (Some (normalize_description (H := BasicLatin) (Some (u "1234 DL*FOO"))))
  <> normalize_description (H := BasicLatin) (Some (u "1234 DL*FOO")).
Proof. vm_compute. discriminate. Qed.

Lemma normalize_digits_before_prefix `{UnicodeDB} :
  normalize_description (Some (u "1234 DL*FOO")) = u "DL*FOO" /\
  normalize_description (Some (u "DL*FOO")) = u "GATEWAY*FOO".
Proof.
  split; rewrite normalize_ascii by reflexivity; vm_compute; reflexivity.
Qed.

Lemma normalize_idempotent_when_stable_witness :
  normalize_description (H := BasicLatin)
    (Some (normalize_description (H := BasicLatin)
             (Some (u "PAG*LOJA123 12/05 4567890123"))))
  = normalize_description (H := BasicLatin)
      (Some (u "PAG*LOJA123 12/05 4567890123")).
Proof.
  apply (@normalize_idempotent_when_stable BasicLatin
           (Some (u "PAG*LOJA123 12/05 4567890123")));
    vm_compute; reflexivity.
Defined.

(** C8, as stated: an accent outside the block U+0300 to U+036F stays.  "A"
    followed by U+1AB0, the combining doubled circumflex accent of the
    block Combining Diacritical Marks Extended, is an accented Latin letter
    that normalisation returns as it is.  U+1AB0 has no upper-case mapping
    and no decomposition, and it is neither white space nor a digit: on this
    text every database agrees with the Basic Latin one. *)
Lemma normalize_keeps_accent_outside_block :
  normalize_description (H := BasicLatin) (Some [65; 6832]%N) = [65; 6832]%N.
Proof. apply (@normalize_keeps_other_mark BasicLatin 6832%N); reflexivity. Qed.
(** * Further properties *)

(** ** Strings and lists *)








(** ** Normalisation: blank descriptions, white space, what is left *)

Section NormalizeMore.
Context `{UnicodeDB}.
Import Re.













(** *** The gateway rules *)













(** *** Second and third normalisation, letter case, outer white space *)








End NormalizeMore.






(** ** Bank encoding: any list of names, letter case, the known names *)

Section BankMore.
Context `{UnicodeDB}.







End BankMore.


(** ** The prepared data set *)

Section DatasetFacts.
Context `{UnicodeDB}.
Variable log1p : float -> float.














End DatasetFacts.

(** ** Rare categories *)









(** ** The category stages and the run *)

(** *** The order of the labels *)

Lemma str_ltb_irrefl (a : str) : str_ltb a a = false.
Proof.
  induction a as [|x a IH]; [reflexivity|]. simpl.
  now rewrite N.ltb_irrefl, N.eqb_refl, IH.
Qed.











Lemma sorted_length (l : list str) : length (sorted l) = length l.
Proof.
  unfold sorted. induction l as [|x l IH]; [reflexivity|]. cbn [fold_right].
  assert (Hi : forall m, length (insort x m) = S (length m)).
  { induction m as [|y m IHm]; [reflexivity|]. simpl.
    destruct (str_ltb y x); simpl; now rewrite ?IHm. }
  now rewrite Hi, IH.
Qed.


(** *** The rows of a stage *)




(** *** Indexing the feature matrix *)





Section RunFacts.
Context `{UnicodeDB}.
Variable log1p : float -> float.
Variable tfidf_terms : list str -> list str.
Variable tfidf_idf : list str -> list float.
Variable tfidf_weight : list str -> str -> str -> float.
Variable model : Type.
Variable classification_report : Type.
Variable report_macro_f1 : classification_report -> float.
Variable train_test_split : matrix -> list str -> list float -> split.
Variable train_model :
  matrix -> list str -> list float -> matrix -> list str -> string ->
  fitted model classification_report.

Let run (dados : list Dado.t) : status * list (effect model) :=
  main log1p tfidf_terms tfidf_idf tfidf_weight report_macro_f1
    train_test_split train_model dados.

Let stage (t : string) (df : list row) (X : matrix) :=
  category_stage train_test_split train_model t df X.






















End RunFacts.





